(** * LXMF vanity address generator: a shallow embedding of [main.go]

    The development follows the layout of the Go program.

    - [Bytes]    Go byte slices, fixed-size arrays and the builtin [copy].
    - [SHA256]   the digest of [crypto/sha256] (FIPS 180-4), executable.
    - the pure functions of [main.go]: [clampX25519], [hexToNibbles],
      [isHex], [validateInputs], [matchesPattern];
    - the body of one [worker] iteration and the address derivation chain;
    - [saveIdentity] over an explicit file store;
    - the worker pool of [main] as an interleaving transition system over
      the shared attempt counter, the stop flag, the wait group and the
      one-slot result channel.

    Bytes are integers in [0, 256); the unsigned machine integers of the
    program are integers with their wrap-around written out. *)

From Stdlib Require Import ZArith Zbitwise Lia Bool.
From stdpp Require Import base tactics option list gmap strings.

Local Open Scope Z_scope.

(** ** Byte slices *)

Module Bytes.

Definition is_byte (b : Z) : Prop := 0 <= b < 256.

Definition all_bytes (l : list Z) : Prop := Forall is_byte l.

(** [var a [n]byte]: a zero-initialised array. *)
Definition zeros (n : nat) : list Z := replicate n 0.

(** [s[lo:hi]] for [lo <= hi <= len(s)]. *)
Definition slice (s : list Z) (lo hi : nat) : list Z :=
  take (hi - lo) (drop lo s).

(** [copy(dst[lo:hi], src)]: the builtin copies
    [min(hi - lo, len(src))] elements and leaves the rest of [dst]
    as it was. *)
Definition copy_into (dst : list Z) (lo hi : nat) (src : list Z) : list Z :=
  let n := ((hi - lo) `min` length src)%nat in
  take lo dst ++ take n src ++ drop (lo + n)%nat dst.

(** [s[i]] with a Go [int] index: [None] stands for the run-time panic
    on an index out of range. *)
Definition index (s : list Z) (i : Z) : option Z :=
  if (0 <=? i) && (i <? Z.of_nat (length s)) then s !! Z.to_nat i else None.

(** [[]byte("...")] for an ASCII literal. *)
Definition of_string (s : string) : list Z :=
  (fun a => Z.of_N (Ascii.N_of_ascii a)) <$> String.list_ascii_of_string s.

End Bytes.

(** ** SHA-256 (FIPS 180-4), the function behind [sha256.Sum256] *)

Module SHA256.

Definition wrap32 (x : Z) : Z := x mod 2 ^ 32.

Definition add32 (x y : Z) : Z := wrap32 (x + y).

Definition rotr (n x : Z) : Z :=
  Z.lor (Z.shiftr x n) (wrap32 (Z.shiftl x (32 - n))).

Definition not32 (x : Z) : Z := Z.lxor x (2 ^ 32 - 1).

Definition Ch (x y z : Z) : Z :=
  Z.lxor (Z.land x y) (Z.land (not32 x) z).

Definition Maj (x y z : Z) : Z :=
  Z.lxor (Z.lxor (Z.land x y) (Z.land x z)) (Z.land y z).

Definition Sigma0 (x : Z) : Z :=
  Z.lxor (Z.lxor (rotr 2 x) (rotr 13 x)) (rotr 22 x).

Definition Sigma1 (x : Z) : Z :=
  Z.lxor (Z.lxor (rotr 6 x) (rotr 11 x)) (rotr 25 x).

Definition sigma0 (x : Z) : Z :=
  Z.lxor (Z.lxor (rotr 7 x) (rotr 18 x)) (Z.shiftr x 3).

Definition sigma1 (x : Z) : Z :=
  Z.lxor (Z.lxor (rotr 17 x) (rotr 19 x)) (Z.shiftr x 10).

(** The round constants are the first 32 bits of the fractional parts
    of the cube roots of the first 64 primes, the initial hash value
    those of the square roots of the first 8 primes. *)
Definition primes : list Z :=
  [ 2; 3; 5; 7; 11; 13; 17; 19; 23; 29; 31; 37; 41; 43; 47; 53;
    59; 61; 67; 71; 73; 79; 83; 89; 97; 101; 103; 107; 109; 113; 127; 131;
    137; 139; 149; 151; 157; 163; 167; 173; 179; 181; 191; 193; 197; 199;
    211; 223; 227; 229; 233; 239; 241; 251; 257; 263; 269; 271; 277; 281;
    283; 293; 307; 311 ].

(** Integer cube root, one bit at a time from bit [bits - 1] down. *)
Fixpoint cbrt_bits (bits : nat) (n r : Z) : Z :=
  match bits with
  | O => r
  | S k =>
      let r' := r + 2 ^ Z.of_nat k in
      cbrt_bits k n (if r' * r' * r' <=? n then r' else r)
  end.

Definition frac_cbrt (p : Z) : Z := wrap32 (cbrt_bits 36 (p * 2 ^ 96) 0).

Definition frac_sqrt (p : Z) : Z := wrap32 (Z.sqrt (p * 2 ^ 64)).

Definition K : list Z := Eval vm_compute in frac_cbrt <$> primes.

Record state : Type := State {
  ha : Z; hb : Z; hc : Z; hd : Z; he : Z; hf : Z; hg : Z; hh : Z
}.

Definition H0 : state :=
  Eval vm_compute in
    State (frac_sqrt 2) (frac_sqrt 3) (frac_sqrt 5) (frac_sqrt 7)
          (frac_sqrt 11) (frac_sqrt 13) (frac_sqrt 17) (frac_sqrt 19).

(** Padding: the byte 0x80, then zero bytes up to 56 modulo 64, then
    the bit length as a 64-bit big-endian integer. *)
Definition be_bytes (n : nat) (x : Z) : list Z :=
  (fun i => Z.land (Z.shiftr x (8 * Z.of_nat i)) 255) <$> rev (seq 0 n).

Definition pad (msg : list Z) : list Z :=
  let len := Z.of_nat (length msg) in
  msg ++ [128] ++ replicate (Z.to_nat ((55 - len) mod 64)) 0
      ++ be_bytes 8 (8 * len).

Definition be_word (bs : list Z) : Z :=
  fold_left (fun acc b => acc * 256 + b) bs 0.

(** The sixteen big-endian words of one 64-byte block. *)
Fixpoint block_words (n : nat) (bs : list Z) : list Z :=
  match n with
  | O => []
  | S k => be_word (take 4 bs) :: block_words k (drop 4 bs)
  end.

(** Message schedule, kept most recent word first. *)
Fixpoint extend (n : nat) (rw : list Z) : list Z :=
  match n with
  | O => rw
  | S k =>
      let wt := add32 (add32 (add32 (sigma1 (nth 1 rw 0)) (nth 6 rw 0))
                             (sigma0 (nth 14 rw 0))) (nth 15 rw 0) in
      extend k (wt :: rw)
  end.

Definition schedule (block : list Z) : list Z :=
  rev (extend 48 (rev (block_words 16 block))).

Definition round (s : state) (kw : Z * Z) : state :=
  let t1 := add32 (add32 (add32 (add32 (hh s) (Sigma1 (he s)))
                                (Ch (he s) (hf s) (hg s))) (fst kw)) (snd kw) in
  let t2 := add32 (Sigma0 (ha s)) (Maj (ha s) (hb s) (hc s)) in
  State (add32 t1 t2) (ha s) (hb s) (hc s) (add32 (hd s) t1) (he s) (hf s) (hg s).

Definition compress (h : state) (block : list Z) : state :=
  let s := fold_left round (zip K (schedule block)) h in
  State (add32 (ha h) (ha s)) (add32 (hb h) (hb s)) (add32 (hc h) (hc s))
        (add32 (hd h) (hd s)) (add32 (he h) (he s)) (add32 (hf h) (hf s))
        (add32 (hg h) (hg s)) (add32 (hh h) (hh s)).

Fixpoint blocks (n : nat) (h : state) (bs : list Z) : state :=
  match n with
  | O => h
  | S k => blocks k (compress h (take 64 bs)) (drop 64 bs)
  end.

Definition word_bytes (x : Z) : list Z :=
  [ Z.land (Z.shiftr x 24) 255; Z.land (Z.shiftr x 16) 255;
    Z.land (Z.shiftr x 8) 255; Z.land x 255 ].

Definition digest (s : state) : list Z :=
  word_bytes (ha s) ++ word_bytes (hb s) ++ word_bytes (hc s) ++ word_bytes (hd s)
    ++ word_bytes (he s) ++ word_bytes (hf s) ++ word_bytes (hg s) ++ word_bytes (hh s).

(** [sha256.Sum256(data)], a [[32]byte]. *)
Definition Sum256 (data : list Z) : list Z :=
  let p := pad data in
  digest (blocks (length p / 64) H0 p).

End SHA256.

(** ** Strings

    A Go string is a byte sequence.  [len(s)] counts bytes, [s[i]] is a
    byte, and [for _, c := range s] decodes UTF-8: a byte below 0x80 is
    its own rune, a well-formed multi-byte sequence yields its code
    point, and any other byte yields [RuneError] and advances by one. *)

Module UTF8.

Definition RuneError : Z := 65533.

Definition between (lo hi b : Z) : bool := (lo <=? b) && (b <=? hi).

Definition cont (b : Z) : bool := between 128 191 b.

(** [utf8.DecodeRuneInString]: the rune and its width in bytes. *)
Definition decodeRune (s : list Z) : Z * nat :=
  match s with
  | [] => (RuneError, 0%nat)
  | b0 :: t =>
      if b0 <? 128 then (b0, 1%nat)
      else if between 194 223 b0 then
        match t with
        | b1 :: _ =>
            if cont b1
            then (Z.lor (Z.shiftl (Z.land b0 31) 6) (Z.land b1 63), 2%nat)
            else (RuneError, 1%nat)
        | _ => (RuneError, 1%nat)
        end
      else if between 224 239 b0 then
        match t with
        | b1 :: b2 :: _ =>
            if between (if b0 =? 224 then 160 else 128)
                       (if b0 =? 237 then 159 else 191) b1 && cont b2
            then (Z.lor (Z.lor (Z.shiftl (Z.land b0 15) 12)
                               (Z.shiftl (Z.land b1 63) 6)) (Z.land b2 63), 3%nat)
            else (RuneError, 1%nat)
        | _ => (RuneError, 1%nat)
        end
      else if between 240 244 b0 then
        match t with
        | b1 :: b2 :: b3 :: _ =>
            if between (if b0 =? 240 then 144 else 128)
                       (if b0 =? 244 then 143 else 191) b1 && cont b2 && cont b3
            then (Z.lor (Z.lor (Z.lor (Z.shiftl (Z.land b0 7) 18)
                                      (Z.shiftl (Z.land b1 63) 12))
                               (Z.shiftl (Z.land b2 63) 6)) (Z.land b3 63), 4%nat)
            else (RuneError, 1%nat)
        | _ => (RuneError, 1%nat)
        end
      else (RuneError, 1%nat)
  end.

(** The runes a [range] loop visits, in order. *)
Fixpoint runes (fuel : nat) (s : list Z) : list Z :=
  match fuel, s with
  | S k, _ :: _ =>
      let '(r, w) := decodeRune s in r :: runes k (drop w s)
  | _, _ => []
  end.

Definition range (s : list Z) : list Z := runes (length s) s.

End UTF8.

(** [strings.ToLower]: a string of ASCII bytes is lowered byte by byte;
    any other string goes through the Unicode tables, which are taken as
    a parameter. *)
Definition lowerByte (c : Z) : Z :=
  if (65 <=? c) && (c <=? 90) then c + 32 else c.

Definition ToLower (unicodeLower : list Z -> list Z) (s : list Z) : list Z :=
  if forallb (fun c => c <? 128) s then lowerByte <$> s else unicodeLower s.

Definition len (s : list Z) : Z := Z.of_nat (length s).

Definition wrap8 (x : Z) : Z := x mod 256.

Definition wrap64 (x : Z) : Z := x mod 2 ^ 64.

(** ** The pure functions of [main.go] *)

(** [isHex]: the loop over the runes of [s] returns false at the first
    rune outside [0-9a-fA-F]. *)
Definition hexRune (c : Z) : bool :=
  ((48 <=? c) && (c <=? 57)) || ((97 <=? c) && (c <=? 102))
  || ((65 <=? c) && (c <=? 70)).

Fixpoint isHex_loop (rs : list Z) : bool :=
  match rs with
  | [] => true
  | c :: rs' => if negb (hexRune c) then false else isHex_loop rs'
  end.

Definition isHex (s : list Z) : bool := isHex_loop (UTF8.range s).

Definition nonempty (s : list Z) : bool :=
  match s with [] => false | _ :: _ => true end.

(** [validateInputs] over the three flags it reads; the result is the
    error, [None] for [nil]. *)
Definition validateInputs (prefix postfix : list Z) (workers : Z) : option string :=
  if nonempty prefix && (32 <? len prefix) then
    Some "prefix must be 1-32 hex characters"%string
  else if nonempty prefix && negb (isHex prefix) then
    Some "prefix must contain only hex characters [0-9a-fA-F]"%string
  else if nonempty postfix && (32 <? len postfix) then
    Some "postfix must be 1-32 hex characters"%string
  else if nonempty postfix && negb (isHex postfix) then
    Some "postfix must contain only hex characters [0-9a-fA-F]"%string
  else if negb (nonempty prefix) && negb (nonempty postfix) then
    Some "at least one of --prefix or --postfix must be specified"%string
  else if workers <? 1 then
    Some "workers must be at least 1"%string
  else None.

(** [clampX25519] on a [[32]byte]. *)
Definition clampX25519 (privateKey : list Z) : list Z :=
  let k := alter (fun b => Z.land b 248) 0%nat privateKey in
  let k := alter (fun b => Z.land b 127) 31%nat k in
  alter (fun b => Z.lor b 64) 31%nat k.

(** [hexToNibbles]: [nibbles] starts as [len(s)] zero bytes; iteration
    [i] stores a value only for a digit or a lower-case letter. *)
Fixpoint hexToNibbles_loop (rem : nat) (s : list Z) (i : nat) (nibbles : list Z)
  : list Z :=
  match rem with
  | O => nibbles
  | S r =>
      match s !! i with
      | Some c =>
          let nibbles' :=
            if (48 <=? c) && (c <=? 57) then <[i := wrap8 (c - 48)]> nibbles
            else if (97 <=? c) && (c <=? 102) then <[i := wrap8 (wrap8 (c - 97) + 10)]> nibbles
            else nibbles in
          hexToNibbles_loop r s (S i) nibbles'
      | None => nibbles
      end
  end.

Definition hexToNibbles (s : list Z) : list Z :=
  hexToNibbles_loop (length s) s 0 (Bytes.zeros (length s)).

(** The two parsing statements of [main]: a pattern stays [nil] when its
    flag is empty. *)
Definition parsePattern (unicodeLower : list Z -> list Z) (flag : list Z) : list Z :=
  let flag := ToLower unicodeLower flag in
  if nonempty flag then hexToNibbles flag else [].

(** [matchesPattern].  A loop result [Some true] means the loop ran to
    its end, [Some false] that it returned false, [None] that an index
    was out of range. *)
Fixpoint prefix_loop (rem : nat) (addr prefixNibbles : list Z) (i : Z) : option bool :=
  match rem with
  | O => Some true
  | S r =>
      let byteIdx := Z.quot i 2 in
      b ← Bytes.index addr byteIdx;
      let nibble :=
        if Z.rem i 2 =? 0 then Z.land (Z.shiftr b 4) 15 else Z.land b 15 in
      p ← Bytes.index prefixNibbles i;
      if negb (nibble =? p) then Some false
      else prefix_loop r addr prefixNibbles (i + 1)
  end.

Fixpoint postfix_loop (rem : nat) (addr postfixNibbles : list Z)
    (startNibble i : Z) : option bool :=
  match rem with
  | O => Some true
  | S r =>
      let nibbleIdx := startNibble + i in
      let byteIdx := Z.quot nibbleIdx 2 in
      b ← Bytes.index addr byteIdx;
      let nibble :=
        if Z.rem nibbleIdx 2 =? 0 then Z.land (Z.shiftr b 4) 15 else Z.land b 15 in
      p ← Bytes.index postfixNibbles i;
      if negb (nibble =? p) then Some false
      else postfix_loop r addr postfixNibbles startNibble (i + 1)
  end.

Definition matchesPattern (prefixNibbles postfixNibbles addr : list Z) : option bool :=
  through ← (if 0 <? len prefixNibbles
             then prefix_loop (length prefixNibbles) addr prefixNibbles 0
             else Some true);
  if negb through then Some false
  else if 0 <? len postfixNibbles then
    let addrLen := len addr * 2 in
    let startNibble := addrLen - len postfixNibbles in
    postfix_loop (length postfixNibbles) addr postfixNibbles startNibble 0
  else Some true.

(** ** Identities and one worker iteration *)

Record Identity : Type := mkIdentity {
  X25519Private : list Z;   (* [32]byte *)
  X25519Public : list Z;    (* [32]byte *)
  Ed25519Seed : list Z;     (* [32]byte *)
  Ed25519Public : list Z;   (* [32]byte *)
  Hash : list Z;            (* [16]byte *)
  Address : list Z          (* [16]byte *)
}.

Definition wf_identity (id : Identity) : Prop :=
  length (X25519Private id) = 32%nat /\ length (X25519Public id) = 32%nat
  /\ length (Ed25519Seed id) = 32%nat /\ length (Ed25519Public id) = 32%nat
  /\ length (Hash id) = 16%nat /\ length (Address id) = 16%nat.

(** The result of [rand.Read(randBuf[:])]: the 64 bytes read, or an
    error. *)
Inductive RandResult : Type :=
| RandOk (randBuf : list Z)
| RandErr.

Definition valid_draw (d : RandResult) : Prop :=
  match d with
  | RandOk randBuf => length randBuf = 64%nat /\ Bytes.all_bytes randBuf
  | RandErr => True
  end.

(** [crypto/rand.Read] is library code, and its contract for a failing
    source has changed between Go releases.  Up to Go 1.23 [Read]
    returns a non-nil error.  From Go 1.24 on [Read] never returns an
    error: when the source fails, the call aborts the process, which no
    goroutine can recover from.  [main.go] does not replace
    [rand.Reader], and nothing in the repository fixes the Go release
    the program is built with. *)
Inductive ReadContract : Type :=
| ReadReturnsError    (* Go 1.23 and earlier *)
| ReadAborts.         (* Go 1.24 and later *)

(** What the system's random source does at one call. *)
Inductive Source : Type :=
| Supplies (randBuf : list Z)
| Unavailable.

(** What [rand.Read(randBuf[:])] hands back to the worker.  [None]: the
    process was aborted inside the call and nothing is handed back. *)
Definition rand_Read (c : ReadContract) (src : Source) : option RandResult :=
  match src with
  | Supplies randBuf => Some (RandOk randBuf)
  | Unavailable =>
      match c with
      | ReadReturnsError => Some RandErr
      | ReadAborts => None
      end
  end.

(** [nameHash := nameHashFull[:10]], computed once per worker. *)
Definition nameHash : list Z :=
  Bytes.slice (SHA256.Sum256 (Bytes.of_string "lxmf.delivery")) 0 10.

(** Lines 197-211 of [worker]: from the two public keys to the identity
    hash and the destination address. *)
Definition deriveHashes (x25519Public ed25519Public : list Z) : list Z * list Z :=
  let publicKey := Bytes.zeros 64 in
  let publicKey := Bytes.copy_into publicKey 0 32 x25519Public in
  let publicKey := Bytes.copy_into publicKey 32 64 ed25519Public in
  let identityHashFull := SHA256.Sum256 publicKey in
  let hash := Bytes.copy_into (Bytes.zeros 16) 0 16 (Bytes.slice identityHashFull 0 16) in
  let addrHashMaterial := Bytes.zeros 26 in
  let addrHashMaterial := Bytes.copy_into addrHashMaterial 0 10 nameHash in
  let addrHashMaterial := Bytes.copy_into addrHashMaterial 10 26 hash in
  let addrHashFull := SHA256.Sum256 addrHashMaterial in
  let address := Bytes.copy_into (Bytes.zeros 16) 0 16 (Bytes.slice addrHashFull 0 16) in
  (hash, address).

Section Primitives.

(** The two library primitives, opaque to this program:
    [curve25519.ScalarBaseMult] (scalar to public key) and
    [ed25519.NewKeyFromSeed(seed).Public()] (seed to public key). *)
Variable ScalarBaseMult : list Z -> list Z.
Variable Ed25519PublicFromSeed : list Z -> list Z.

(** [generateEd25519Public]. *)
Definition generateEd25519Public (ed25519Public seed : list Z) : list Z :=
  let publicKey := Ed25519PublicFromSeed seed in
  Bytes.copy_into ed25519Public 0 32 publicKey.

(** Lines 187-211 of [worker]: the identity built from the random
    buffer.  [ScalarBaseMult] fills the [[32]byte] it is given. *)
Definition newIdentity (randBuf : list Z) : Identity :=
  let x25519Private := Bytes.copy_into (Bytes.zeros 32) 0 32 (Bytes.slice randBuf 0 32) in
  let ed25519Seed := Bytes.copy_into (Bytes.zeros 32) 0 32 (Bytes.slice randBuf 32 64) in
  let x25519Private := clampX25519 x25519Private in
  let x25519Public := Bytes.copy_into (Bytes.zeros 32) 0 32 (ScalarBaseMult x25519Private) in
  let ed25519Public := generateEd25519Public (Bytes.zeros 32) ed25519Seed in
  let '(hash, address) := deriveHashes x25519Public ed25519Public in
  mkIdentity x25519Private x25519Public ed25519Seed ed25519Public hash address.

(** *** Shared state of the search *)

Record Shared : Type := mkShared {
  totalAttempts : Z;             (* uint64, atomic *)
  found : Z;                     (* uint32, atomic *)
  wg : Z;                        (* counter of the sync.WaitGroup *)
  resultChan : list Identity     (* buffer of the channel, capacity 1 *)
}.

Definition set_totalAttempts (v : Z) (sh : Shared) : Shared :=
  mkShared v (found sh) (wg sh) (resultChan sh).
Definition set_found (v : Z) (sh : Shared) : Shared :=
  mkShared (totalAttempts sh) v (wg sh) (resultChan sh).
Definition set_wg (v : Z) (sh : Shared) : Shared :=
  mkShared (totalAttempts sh) (found sh) v (resultChan sh).
Definition set_resultChan (c : list Identity) (sh : Shared) : Shared :=
  mkShared (totalAttempts sh) (found sh) (wg sh) c.

(** [atomic.AddUint64(&totalAttempts, 1)]. *)
Definition addAttempt (sh : Shared) : Shared :=
  set_totalAttempts (wrap64 (totalAttempts sh + 1)) sh.

(** [select { case resultChan <- &identity: default: }] on a channel
    of capacity one: the send is taken when the buffer has room,
    otherwise the default branch. *)
Definition trySend (id : Identity) (sh : Shared) : Shared :=
  if (length (resultChan sh) <? 1)%nat
  then set_resultChan (resultChan sh ++ [id]) sh
  else sh.

Variable prefixNibbles postfixNibbles : list Z.

(** *** The worker as a machine

    The control points of [worker] between two accesses to shared
    state.  The atomics of [sync/atomic] and the channel operations are
    sequentially consistent, so the pool is modelled by interleaving
    these steps.  The identity is a variable declared inside the loop and
    the worker returns right after its [select], so nothing writes to an
    identity once its address has been sent: the pointer is modelled by
    the value.  [monitorProgress] only loads the two atomics and prints;
    it is left out. *)
Inductive wpc : Type :=
| WIdle                    (* goroutine not started *)
| WCheck                   (* top of the loop, before the load of [found] *)
| WRead                    (* before [rand.Read] *)
| WCount (id : Identity)   (* identity derived, before the atomic add *)
| WMatch (id : Identity)   (* counted, before [matchesPattern] *)
| WSend (id : Identity)    (* matched, at the [select] *)
| WDefer                   (* returning, deferred [wg.Done] pending *)
| WExit.                   (* goroutine finished *)

(** One step of a worker.  [None]: no step (idle, finished, or a
    run-time panic in [matchesPattern]). *)
Definition worker_step (pc : wpc) (draw : RandResult) (sh : Shared)
  : option (wpc * Shared) :=
  match pc with
  | WIdle => None
  | WCheck => if found sh =? 1 then Some (WDefer, sh) else Some (WRead, sh)
  | WRead =>
      match draw with
      | RandErr => Some (WCheck, sh)
      | RandOk randBuf => Some (WCount (newIdentity randBuf), sh)
      end
  | WCount id => Some (WMatch id, addAttempt sh)
  | WMatch id =>
      match matchesPattern prefixNibbles postfixNibbles (Address id) with
      | Some true => Some (WSend id, sh)
      | Some false => Some (WCheck, sh)
      | None => None
      end
  | WSend id => Some (WDefer, trySend id sh)
  | WDefer => Some (WExit, set_wg (wg sh - 1) sh)
  | WExit => None
  end.

(** A worker run on its own: [draws] are the successive results of
    [rand.Read].  The run stops when the worker has finished, cannot
    step, or the fuel is spent. *)
Fixpoint worker_run (fuel : nat) (draws : nat -> RandResult) (n : nat)
    (pc : wpc) (sh : Shared) : wpc * Shared :=
  match fuel with
  | O => (pc, sh)
  | S k =>
      match worker_step pc (draws n) sh with
      | Some (pc', sh') =>
          worker_run k draws (match pc with WRead => S n | _ => n end) pc' sh'
      | None => (pc, sh)
      end
  end.

(** The worker over the random source itself.  Only the step at [WRead]
    calls [rand.Read]; the other steps do not look at a draw. *)
Inductive Outcome : Type :=
| At (pc : wpc) (sh : Shared)   (* the worker is at [pc] *)
| Aborted.                      (* the process was aborted in [rand.Read] *)

Definition worker_step_on (c : ReadContract) (pc : wpc) (src : Source) (sh : Shared)
  : option Outcome :=
  match pc with
  | WRead =>
      match rand_Read c src with
      | Some draw =>
          match worker_step WRead draw sh with
          | Some (pc', sh') => Some (At pc' sh')
          | None => None
          end
      | None => Some Aborted
      end
  | _ =>
      match worker_step pc RandErr sh with
      | Some (pc', sh') => Some (At pc' sh')
      | None => None
      end
  end.

(** A worker run on its own over the source: [sources] are the
    successive states of the source.  The run stops when the process is
    aborted, the worker has finished or cannot step, or the fuel is
    spent. *)
Fixpoint worker_run_on (c : ReadContract) (fuel : nat) (sources : nat -> Source)
    (n : nat) (pc : wpc) (sh : Shared) : Outcome :=
  match fuel with
  | O => At pc sh
  | S k =>
      match worker_step_on c pc (sources n) sh with
      | Some (At pc' sh') =>
          worker_run_on c k sources (match pc with WRead => S n | _ => n end) pc' sh'
      | Some Aborted => Aborted
      | None => At pc sh
      end
  end.

(** *** The coordinator ([main] from the creation of the channel) *)

Variable workers : nat.

Inductive mpc : Type :=
| MLoop (i : nat)            (* loop test [i < workers], then [wg.Add(1)] *)
| MGo (i : nat)              (* [go worker(&wg, resultChan)] *)
| MRecv                      (* [identity := <-resultChan] *)
| MStore (id : Identity)     (* [atomic.StoreUint32(&found, 1)] *)
| MWait (id : Identity)      (* [wg.Wait()] *)
| MReturned (id : Identity). (* past the wait: display and save [id] *)

(** History variables: they record what happened and influence
    nothing. *)
Record History : Type := mkHistory {
  sent : list Identity;       (* sends taken by the [select] *)
  dropped : list Identity;    (* sends that fell to [default] *)
  received : list Identity;   (* values received by [main] *)
  completed : Z               (* iterations that reached the end of the match test *)
}.

Record System : Type := mkSystem {
  shared : Shared;
  pool : list wpc;
  coord : mpc;
  hist : History
}.

Definition initial : System :=
  mkSystem (mkShared 0 0 0 []) (replicate workers WIdle) (MLoop 0)
           (mkHistory [] [] [] 0).

Definition record_worker (pc : wpc) (sh : Shared) (h : History) : History :=
  match pc with
  | WMatch _ => mkHistory (sent h) (dropped h) (received h) (completed h + 1)
  | WSend id =>
      if (length (resultChan sh) <? 1)%nat
      then mkHistory (sent h ++ [id]) (dropped h) (received h) (completed h)
      else mkHistory (sent h) (dropped h ++ [id]) (received h) (completed h)
  | _ => h
  end.

Inductive action : Type :=
| ActWorker (i : nat) (draw : RandResult)
| ActMain.

Definition valid_action (a : action) : Prop :=
  match a with
  | ActWorker _ draw => valid_draw draw
  | ActMain => True
  end.

Definition main_step (s : System) : option System :=
  match coord s with
  | MLoop i =>
      if (i <? workers)%nat
      then Some (mkSystem (set_wg (wg (shared s) + 1) (shared s)) (pool s) (MGo i) (hist s))
      else Some (mkSystem (shared s) (pool s) MRecv (hist s))
  | MGo i =>
      Some (mkSystem (shared s) (<[i := WCheck]> (pool s)) (MLoop (S i)) (hist s))
  | MRecv =>
      match resultChan (shared s) with
      | id :: rest =>
          Some (mkSystem (set_resultChan rest (shared s)) (pool s) (MStore id)
                  (mkHistory (sent (hist s)) (dropped (hist s))
                             (received (hist s) ++ [id]) (completed (hist s))))
      | [] => None
      end
  | MStore id =>
      Some (mkSystem (set_found 1 (shared s)) (pool s) (MWait id) (hist s))
  | MWait id =>
      if wg (shared s) =? 0
      then Some (mkSystem (shared s) (pool s) (MReturned id) (hist s))
      else None
  | MReturned _ => None
  end.

Definition exec (a : action) (s : System) : option System :=
  match a with
  | ActWorker i draw =>
      pc ← pool s !! i;
      '(pc', sh') ← worker_step pc draw (shared s);
      Some (mkSystem sh' (<[i := pc']> (pool s)) (coord s)
              (record_worker pc (shared s) (hist s)))
  | ActMain => main_step s
  end.

Definition step (s s' : System) : Prop :=
  exists a, valid_action a /\ exec a s = Some s'.

Definition reachable (s : System) : Prop := rtc step initial s.

(** Running a schedule: the actions of a trace, in order. *)
Fixpoint run (sched : list action) (s : System) : option System :=
  match sched with
  | [] => Some s
  | a :: rest => s' ← exec a s; run rest s'
  end.

(** *** Invariants of the search *)

(** A goroutine that has started and not yet run its [wg.Done]. *)
Definition active (pc : wpc) : Z :=
  match pc with WIdle | WExit => 0 | _ => 1 end.

(** An iteration that has been counted and not yet finished. *)
Definition counted (pc : wpc) : Z :=
  match pc with WMatch _ => 1 | _ => 0 end.

Definition total (f : wpc -> Z) (p : list wpc) : Z :=
  foldr (fun pc n => f pc + n) 0 p.

(** The identity [main] holds once it has received one. *)
Definition holds (c : mpc) : list Identity :=
  match c with
  | MStore id | MWait id | MReturned id => [id]
  | _ => []
  end.

Definition spawn_count (c : mpc) : nat :=
  match c with MLoop i | MGo i => i | _ => workers end.

(** An identity a worker derived from 64 random bytes, and one that
    also passed the match test. *)
Definition derived (id : Identity) : Prop :=
  exists randBuf, valid_draw (RandOk randBuf) /\ id = newIdentity randBuf.

Definition discovered (id : Identity) : Prop :=
  derived id
  /\ matchesPattern prefixNibbles postfixNibbles (Address id) = Some true.

Definition pc_ok (pc : wpc) : Prop :=
  match pc with
  | WCount id | WMatch id => derived id
  | WSend id => discovered id
  | _ => True
  end.

Record invariant (s : System) : Prop := mkInvariant {
  inv_len : length (pool s) = workers;
  inv_spawn :
    (spawn_count (coord s) <= workers)%nat
    /\ (forall i, coord s = MGo i -> (i < workers)%nat)
    /\ forall j pc, pool s !! j = Some pc ->
         (pc = WIdle <-> (spawn_count (coord s) <= j)%nat);
  inv_wg :
    wg (shared s) =
      total active (pool s) + match coord s with MGo _ => 1 | _ => 0 end;
  inv_done :
    match coord s with MReturned _ => wg (shared s) = 0 | _ => True end;
  inv_found :
    found (shared s) =
      match coord s with MWait _ | MReturned _ => 1 | _ => 0 end;
  inv_cap : (length (resultChan (shared s)) <= 1)%nat;
  inv_chan : sent (hist s) = received (hist s) ++ resultChan (shared s);
  inv_recv : received (hist s) = holds (coord s);
  inv_count :
    totalAttempts (shared s)
      = wrap64 (completed (hist s) + total counted (pool s));
  inv_done_count : 0 <= completed (hist s);
  inv_pcs : Forall pc_ok (pool s);
  inv_sent : Forall discovered (sent (hist s))
}.

End Primitives.

(** Stand-ins for the two library primitives, for running the model on
    concrete data: any pair of functions will do for the properties of
    this program, which never look inside them. *)
Definition sample_ScalarBaseMult (scalar : list Z) : list Z := rev scalar.

Definition sample_Ed25519Public (seed : list Z) : list Z := (fun b => Z.lxor b 90) <$> seed.

Definition sample_identity : Identity :=
  mkIdentity (replicate 32 1) (replicate 32 2) (replicate 32 3) (replicate 32 4)
             (replicate 16 5) (replicate 16 6).

(** Three random buffers and the pattern of the flag [--prefix 2]: with
    the stand-in primitives the addresses of the first two start with
    nibble 2 and the address of the third does not. *)
Definition buf_a : list Z := replicate 64 0.
Definition buf_b : list Z := replicate 64 1.
Definition buf_miss : list Z := replicate 64 2.

Definition sample_newIdentity : list Z -> Identity :=
  newIdentity sample_ScalarBaseMult sample_Ed25519Public.

(** A worker step that reads no random bytes. *)
Definition tick (i : nat) : action := ActWorker i RandErr.

(** Two workers both find a match.  Worker 0 publishes, [main] receives,
    and only then worker 1 reaches its [select]. *)
Definition two_winners : list action :=
  [ ActMain; ActMain; ActMain; ActMain; ActMain;
    tick 0; ActWorker 0 (RandOk buf_a); tick 0; tick 0;
    tick 1; ActWorker 1 (RandOk buf_b); tick 1; tick 1;
    tick 0;      (* worker 0: send taken *)
    ActMain;     (* main: receive *)
    tick 1;      (* worker 1: send taken as well *)
    ActMain;     (* main: store found *)
    tick 0; tick 1;
    ActMain ].   (* main: past wg.Wait *)

(** The same two winners, but worker 1 reaches its [select] while the
    value of worker 0 is still in the buffer. *)
Definition late_loser : list action :=
  [ ActMain; ActMain; ActMain; ActMain; ActMain;
    tick 0; ActWorker 0 (RandOk buf_a); tick 0; tick 0;
    tick 1; ActWorker 1 (RandOk buf_b); tick 1; tick 1;
    tick 0;      (* worker 0: send taken *)
    tick 1;      (* worker 1: default branch *)
    ActMain; ActMain;
    tick 0; tick 1;
    ActMain ].

(** The states the two schedules end in. *)
Definition two_winners_final : System :=
  mkSystem (mkShared 2 1 0 [sample_newIdentity buf_b]) [WExit; WExit]
           (MReturned (sample_newIdentity buf_a))
           (mkHistory [sample_newIdentity buf_a; sample_newIdentity buf_b] []
                      [sample_newIdentity buf_a] 2).

Definition late_loser_final : System :=
  mkSystem (mkShared 2 1 0 []) [WExit; WExit]
           (MReturned (sample_newIdentity buf_a))
           (mkHistory [sample_newIdentity buf_a] [sample_newIdentity buf_b]
                      [sample_newIdentity buf_a] 2).

(** Worker 0 of two about to count its first iteration, and the state
    one step later. *)
Definition before_count : System :=
  mkSystem (mkShared 0 0 2 []) [WCount (sample_newIdentity buf_a); WCheck] MRecv
           (mkHistory [] [] [] 0).

Definition after_count : System :=
  mkSystem (mkShared 1 0 2 []) [WMatch (sample_newIdentity buf_a); WCheck] MRecv
           (mkHistory [] [] [] 0).

(** A single worker at the top of its loop after [t] iterations without
    a match. *)
Definition spin_state (t : Z) : System :=
  mkSystem (mkShared (wrap64 t) 0 1 []) [WCheck] MRecv (mkHistory [] [] [] t).

(** One worker whose attempt counter stands at its largest value and
    which is about to count a further iteration. *)
Definition counter_at_max : System :=
  mkSystem (mkShared (2 ^ 64 - 1) 0 1 []) [WCount (sample_newIdentity buf_miss)] MRecv
           (mkHistory [] [] [] (2 ^ 64 - 1)).

(** The start of [main]: validation first; on an error the program
    prints it and exits with status 1, otherwise the flags are lowered
    and parsed and the pool is set up with no worker started. *)
Inductive startup : Type :=
| Rejected (err : string)
| Searching (prefixNibbles postfixNibbles : list Z) (s : System).

Definition main_start (unicodeLower : list Z -> list Z)
    (prefix postfix : list Z) (workers : Z) : startup :=
  match validateInputs prefix postfix workers with
  | Some err => Rejected err
  | None =>
      Searching (parsePattern unicodeLower prefix) (parsePattern unicodeLower postfix)
                (initial (Z.to_nat workers))
  end.

(** ** [saveIdentity] over an explicit file store *)

(** [hex.EncodeToString]. *)
Definition hexDigit (n : Z) : Z := if n <? 10 then 48 + n else 87 + n.

Definition hex_EncodeToString (bs : list Z) : list Z :=
  mjoin ((fun b => [hexDigit (Z.shiftr b 4); hexDigit (Z.land b 15)]) <$> bs).

(** What the environment does to the next file operation. *)
Inductive fault : Type :=
| Succeeds
| FailsAfter (n : nat).   (* a write: error after [n] bytes; a create: error *)

Record World : Type := mkWorld {
  files : gmap string (list Z);
  faults : list fault
}.

Inductive error : Type :=
| ErrCreate (path : string)
| ErrWrite (path : string).

Definition next_fault (w : World) : fault * World :=
  match faults w with
  | [] => (Succeeds, w)
  | f :: rest => (f, mkWorld (files w) rest)
  end.

(** [os.Create(path)]: the file exists and is empty afterwards. *)
Definition os_Create (path : string) (w : World) : bool * World :=
  match next_fault w with
  | (Succeeds, w') => (true, mkWorld (<[path := []]> (files w')) (faults w'))
  | (FailsAfter _, w') => (false, w')
  end.

(** [file.Write(b)] on a handle just created and written sequentially:
    the bytes go to the end of the file. *)
Definition file_Write (path : string) (b : list Z) (w : World) : bool * World :=
  match next_fault w with
  | (Succeeds, w') =>
      (true, mkWorld (<[path := default [] (files w' !! path) ++ b]> (files w')) (faults w'))
  | (FailsAfter n, w') =>
      (false, mkWorld (<[path := default [] (files w' !! path) ++ take n b]> (files w'))
                      (faults w'))
  end.

Section Persistence.

(** [base64.StdEncoding.EncodeToString] and
    [base32.StdEncoding.EncodeToString]. *)
Variable base64_Std base32_Std : list Z -> list Z.

Definition txt (s : string) : list Z := Bytes.of_string s.
Definition nl : list Z := [10].

(** The [fmt.Fprintf(infoFile, ...)] calls of [saveIdentity], in
    order; [privKey] is the 64-byte array of the two private parts. *)
Definition report (identity : Identity) : list (list Z) :=
  let privKey := Bytes.zeros 64 in
  let privKey := Bytes.copy_into privKey 0 32 (X25519Private identity) in
  let privKey := Bytes.copy_into privKey 32 64 (Ed25519Seed identity) in
  let b64 := base64_Std privKey in
  let b32 := base32_Std privKey in
  [ txt "LXMF Vanity Address Identity" ++ nl;
    txt "============================" ++ nl ++ nl;
    txt "Address (LXMF): " ++ hex_EncodeToString (Address identity) ++ nl;
    txt "Identity Hash:  " ++ hex_EncodeToString (Hash identity) ++ nl ++ nl;
    txt "Public Key (X25519 + Ed25519):" ++ nl;
    txt "  X25519 Public:  " ++ hex_EncodeToString (X25519Public identity) ++ nl;
    txt "  Ed25519 Public: " ++ hex_EncodeToString (Ed25519Public identity) ++ nl ++ nl;
    txt "Private Key (X25519 + Ed25519):" ++ nl;
    txt "  X25519 Private: " ++ hex_EncodeToString (X25519Private identity) ++ nl;
    txt "  Ed25519 Seed:   " ++ hex_EncodeToString (Ed25519Seed identity) ++ nl;
    nl;
    txt "--- Import formats ---" ++ nl;
    txt "Base64 (MeshChat import string):" ++ nl ++ b64 ++ nl;
    txt "Base32 (Sideband import string):" ++ nl ++ b32 ++ nl ].

(** [saveIdentity]: the error returned ([None] for [nil]) and the
    world afterwards.  The results of the [Fprintf] calls are
    discarded, as in the source. *)
Definition saveIdentity (identity : Identity) (path : string) (w : World)
  : option error * World :=
  let '(ok, w) := os_Create path w in
  if negb ok then (Some (ErrCreate path), w) else
  let '(ok, w) := file_Write path (X25519Private identity) w in
  if negb ok then (Some (ErrWrite path), w) else
  let '(ok, w) := file_Write path (Ed25519Seed identity) w in
  if negb ok then (Some (ErrWrite path), w) else
  let infoPath := (path +:+ ".txt")%string in
  let '(ok, w) := os_Create infoPath w in
  if negb ok then (Some (ErrCreate infoPath), w) else
  let w := fold_left (fun w chunk => snd (file_Write infoPath chunk w))
                     (report identity) w in
  (None, w).

End Persistence.

(** ** The statements of the specification, in its own words *)

Module Spec.

(** Nibble [k] of an address: the high half of byte [k / 2] for even
    [k], the low half for odd [k]. *)
Definition nibble (address : list Z) (k : nat) : option Z :=
  b ← address !! (k / 2)%nat;
  Some (if Nat.even k then b / 16 else b mod 16).

(** [matches(address, pattern)]. *)
Definition matches (prefix_nibbles suffix_nibbles address : list Z) : Prop :=
  (forall i, (i < length prefix_nibbles)%nat ->
             nibble address i = prefix_nibbles !! i)
  /\ (forall j, (j < length suffix_nibbles)%nat ->
             nibble address (32 - length suffix_nibbles + j) = suffix_nibbles !! j).

(** The three steps of the address derivation. *)
Definition name_hash : list Z :=
  take 10 (SHA256.Sum256 (Bytes.of_string "lxmf.delivery")).

Definition fingerprint (exchange_public signing_public : list Z) : list Z :=
  take 16 (SHA256.Sum256 (exchange_public ++ signing_public)).

Definition address (fp : list Z) : list Z :=
  take 16 (SHA256.Sum256 (name_hash ++ fp)).

(** The value of a hex digit, either case. *)
Definition hex_value (c : Z) : option Z :=
  if (48 <=? c) && (c <=? 57) then Some (c - 48)
  else if (97 <=? c) && (c <=? 102) then Some (c - 87)
  else if (65 <=? c) && (c <=? 70) then Some (c - 55)
  else None.

Definition hex_char (c : Z) : Prop := is_Some (hex_value c).

(** What [hexToNibbles] is documented to store for one byte: the
    value of a digit or lower-case hex letter, zero for anything
    else. *)
Definition lower_hex_or_zero (c : Z) : Z :=
  if (48 <=? c) && (c <=? 57) then c - 48
  else if (97 <=? c) && (c <=? 102) then c - 87
  else 0.

(** Bit [j] of byte [i] of a key. *)
Definition key_bit (k : list Z) (i : nat) (j : Z) : bool :=
  Z.testbit (default 0 (k !! i)) j.

(** The five bit positions the clamping fixes. *)
Definition clamped_position (i : nat) (j : Z) : Prop :=
  (i = 0%nat /\ 0 <= j <= 2) \/ (i = 31%nat /\ 6 <= j <= 7).

(** A pattern string is acceptable when each of its characters is a
    hex digit and there are at most 32 of them. *)
Definition bad_pattern (s : list Z) : Prop :=
  Exists (fun c => ~ hex_char c) (UTF8.range s)
  \/ (32 < length (UTF8.range s))%nat.

Definition invalid_configuration (prefix postfix : list Z) (workers : Z) : Prop :=
  bad_pattern prefix \/ bad_pattern postfix
  \/ (prefix = [] /\ postfix = []) \/ workers < 1.

End Spec.

(** ** Notions for the further properties *)

(** A key read as a little-endian integer, the way X25519 reads its
    scalar. *)
Definition le_int (k : list Z) : Z := foldr (fun b acc => b + 256 * acc) 0 k.

(** The nibbles of a byte string, high half first: the digits of its
    hex encoding. *)
Definition nibbles_of (bs : list Z) : list Z :=
  mjoin ((fun b => [b / 16; b mod 16]) <$> bs).

(** An ASCII hex digit, either case, and a lower-case one. *)
Definition hex_digit_byte (c : Z) : Prop :=
  48 <= c <= 57 \/ 97 <= c <= 102 \/ 65 <= c <= 70.

Definition lower_hex_byte (c : Z) : Prop :=
  48 <= c <= 57 \/ 97 <= c <= 102.

(** A goroutine that has left its loop. *)
Definition leaving (pc : wpc) : Prop := pc = WDefer \/ pc = WExit.

(** Whether the environment lets the next file operation succeed. *)
Definition next_ok (w : World) : bool :=
  match faults w with
  | FailsAfter _ :: _ => false
  | _ => true
  end.

(** The state of the schedule [two_winners] when [main] has received the
    first identity and is about to store the stop flag, and the state one
    step later. *)
Definition at_store : System :=
  mkSystem (mkShared 2 0 2 []) [WDefer; WSend (sample_newIdentity buf_b)]
           (MStore (sample_newIdentity buf_a))
           (mkHistory [sample_newIdentity buf_a] [] [sample_newIdentity buf_a] 2).

Definition after_store : System :=
  mkSystem (mkShared 2 1 2 []) [WDefer; WSend (sample_newIdentity buf_b)]
           (MWait (sample_newIdentity buf_a))
           (mkHistory [sample_newIdentity buf_a] [] [sample_newIdentity buf_a] 2).

(** * Properties *)

Arguments SHA256.Sum256 : simpl never.
Arguments UTF8.decodeRune : simpl never.
Arguments newIdentity : simpl never.
Arguments matchesPattern : simpl never.

(** ** Known answers *)

Example sha256_abc :
  SHA256.Sum256 (Bytes.of_string "abc") =
  [186; 120; 22; 191; 143; 1; 207; 234; 65; 65; 64; 222; 93; 174; 34; 35;
   176; 3; 97; 163; 150; 23; 122; 156; 180; 16; 255; 97; 242; 0; 21; 173].
Proof. vm_compute. reflexivity. Qed.

Example sha256_empty :
  SHA256.Sum256 [] =
  [227; 176; 196; 66; 152; 252; 28; 20; 154; 251; 244; 200; 153; 111; 185; 36;
   39; 174; 65; 228; 100; 155; 147; 76; 164; 149; 153; 27; 120; 82; 184; 85].
Proof. vm_compute. reflexivity. Qed.

Example sha256_two_blocks :
  SHA256.Sum256 (replicate 56 97) =
  [179; 84; 57; 164; 172; 111; 9; 72; 182; 214; 249; 227; 198; 175; 15; 95;
   89; 12; 226; 15; 27; 222; 112; 144; 239; 121; 112; 104; 110; 198; 115; 138].
Proof. vm_compute. reflexivity. Qed.

(** The identity hash and address printed in TECHNICAL.md. *)
Example documented_address :
  Spec.address [159; 104; 19; 237; 103; 137; 67; 17; 99; 40; 53; 117; 18; 82; 73; 168]
  = [202; 254; 97; 250; 29; 244; 132; 235; 87; 195; 227; 126; 245; 146; 138; 60].
Proof. vm_compute. reflexivity. Qed.

Example nameHash_value :
  nameHash = [110; 198; 11; 195; 24; 226; 192; 240; 217; 8].
Proof. vm_compute. reflexivity. Qed.

Example hexToNibbles_cafe :
  hexToNibbles (Bytes.of_string "cafe09") = [12; 10; 15; 14; 0; 9].
Proof. reflexivity. Qed.

Example matches_cafe :
  matchesPattern [12; 10; 15; 14] [11; 14] ([202; 254] ++ replicate 13 0 ++ [190]) = Some true
  /\ matchesPattern [12; 10; 15; 13] [] ([202; 254] ++ replicate 13 0 ++ [190]) = Some false
  /\ matchesPattern [] [14] ([202; 254] ++ replicate 13 0 ++ [190]) = Some true
  /\ matchesPattern [] [14; 15] ([202; 254] ++ replicate 13 0 ++ [190]) = Some false.
Proof. repeat split; reflexivity. Qed.


Example range_decodes :
  UTF8.range [195; 169; 97; 226; 130; 172; 255] = [233; 97; 8364; 65533].
Proof. reflexivity. Qed.

(** ** Byte slices *)

Section BytesFacts.
Import Bytes.

Lemma length_zeros n : length (zeros n) = n.
Proof. apply length_replicate. Qed.

Lemma copy_into_exact dst lo hi src :
  (lo <= hi)%nat -> (hi <= length dst)%nat -> length src = (hi - lo)%nat ->
  copy_into dst lo hi src = take lo dst ++ src ++ drop hi dst.
Proof.
  intros Hlo Hhi Hsrc. unfold copy_into.
  rewrite <- Hsrc, Nat.min_id, firstn_all, Hsrc.
  replace (lo + (hi - lo))%nat with hi by lia. reflexivity.
Qed.

Lemma length_copy_into dst lo hi src :
  (lo <= hi)%nat -> (hi <= length dst)%nat ->
  length (copy_into dst lo hi src) = length dst.
Proof.
  intros Hlo Hhi. unfold copy_into.
  rewrite !length_app, !length_take, length_drop. lia.
Qed.

Lemma copy_into_whole n src :
  length src = n -> copy_into (zeros n) 0 n src = src.
Proof.
  intros H. rewrite copy_into_exact; rewrite ?length_zeros; try lia.
  rewrite take_0, drop_ge by (rewrite length_zeros; lia).
  simpl. apply app_nil_r.
Qed.

Lemma copy_into_pair n m x y :
  length x = n -> length y = m ->
  copy_into (copy_into (zeros (n + m)) 0 n x) n (n + m) y = x ++ y.
Proof.
  intros Hx Hy.
  rewrite (copy_into_exact (zeros (n + m)) 0 n x);
    rewrite ?length_zeros; try lia.
  rewrite take_0. simpl.
  rewrite copy_into_exact.
  - rewrite take_app_length' by done.
    rewrite drop_ge; [by rewrite app_nil_r|].
    rewrite length_app, length_drop, length_zeros. lia.
  - lia.
  - rewrite length_app, length_drop, length_zeros. lia.
  - lia.
Qed.

Lemma slice_prefix s n : slice s 0 n = take n s.
Proof. unfold slice. by rewrite drop_0, Nat.sub_0_r. Qed.

Lemma length_slice s lo hi :
  (hi <= length s)%nat -> length (slice s lo hi) = (hi - lo)%nat.
Proof. intros H. unfold slice. rewrite length_take, length_drop. lia. Qed.

End BytesFacts.

(** ** SHA-256 returns 32 bytes *)

Lemma length_Sum256 data : length (SHA256.Sum256 data) = 32%nat.
Proof. reflexivity. Qed.

Lemma Sum256_bytes data : Bytes.all_bytes (SHA256.Sum256 data).
Proof.
  unfold SHA256.Sum256, SHA256.digest, SHA256.word_bytes, Bytes.all_bytes.
  cbv zeta. simpl app.
  repeat (apply Forall_cons; split;
    [unfold Bytes.is_byte; change 255 with (Z.ones 8);
     rewrite Z.land_ones by lia; apply Z.mod_pos_bound; lia|]).
  constructor.
Qed.

(** ** Address derivation *)

Lemma nameHash_spec : nameHash = Spec.name_hash.
Proof. unfold nameHash, Spec.name_hash. apply slice_prefix. Qed.

Lemma length_name_hash : length Spec.name_hash = 10%nat.
Proof. unfold Spec.name_hash. rewrite length_take, length_Sum256. reflexivity. Qed.

Lemma length_fingerprint x e : length (Spec.fingerprint x e) = 16%nat.
Proof. unfold Spec.fingerprint. rewrite length_take, length_Sum256. reflexivity. Qed.

Lemma length_address fp : length (Spec.address fp) = 16%nat.
Proof. unfold Spec.address. rewrite length_take, length_Sum256. reflexivity. Qed.

Lemma deriveHashes_chain x e :
  length x = 32%nat -> length e = 32%nat ->
  deriveHashes x e = (Spec.fingerprint x e, Spec.address (Spec.fingerprint x e)).
Proof.
  intros Hx He. unfold deriveHashes.
  pose proof (copy_into_pair 32 32 x e Hx He) as Hpub.
  change (32 + 32)%nat with 64%nat in Hpub. rewrite Hpub.
  rewrite !slice_prefix.
  rewrite (copy_into_whole 16 (take 16 (SHA256.Sum256 (x ++ e))))
    by (rewrite length_take, length_Sum256; reflexivity).
  fold (Spec.fingerprint x e).
  rewrite nameHash_spec.
  pose proof (copy_into_pair 10 16 Spec.name_hash (Spec.fingerprint x e)
                length_name_hash (length_fingerprint x e)) as Hmat.
  change (10 + 16)%nat with 26%nat in Hmat. rewrite Hmat.
  rewrite copy_into_whole by (rewrite length_take, length_Sum256; reflexivity).
  reflexivity.
Qed.

(** C1. For every pair of 32-byte public keys, the identity hash the
    worker computes is the first 16 bytes of SHA-256 of the 64-byte
    concatenation exchange key then signing key, and the address is the
    first 16 bytes of SHA-256 of the 26-byte concatenation of the 10-byte
    name hash (first 10 bytes of SHA-256 of "lxmf.delivery") and that
    16-byte hash. *)
Theorem derivation_chain_exact (exchange_public signing_public : list Z) :
  length exchange_public = 32%nat ->
  length signing_public = 32%nat ->
  let fp := take 16 (SHA256.Sum256 (exchange_public ++ signing_public)) in
  let name_hash := take 10 (SHA256.Sum256 (Bytes.of_string "lxmf.delivery")) in
  deriveHashes exchange_public signing_public
    = (fp, take 16 (SHA256.Sum256 (name_hash ++ fp)))
  /\ nameHash = name_hash
  /\ length (exchange_public ++ signing_public) = 64%nat
  /\ length name_hash = 10%nat
  /\ length fp = 16%nat
  /\ length (name_hash ++ fp) = 26%nat.
Proof.
  intros Hx He fp name_hash.
  split; [apply (deriveHashes_chain _ _ Hx He)|].
  split; [apply nameHash_spec|].
  split; [rewrite length_app; lia|].
  split; [apply length_name_hash|].
  split; [apply length_fingerprint|].
  rewrite length_app.
  change (length name_hash) with (length Spec.name_hash).
  rewrite length_name_hash.
  change (length fp) with (length (Spec.fingerprint exchange_public signing_public)).
  rewrite length_fingerprint. reflexivity.
Qed.

Lemma derivation_chain_exact_witness :
  let x := replicate 32 7 in
  let e := replicate 32 9 in
  deriveHashes x e
  = (take 16 (SHA256.Sum256 (x ++ e)),
     take 16 (SHA256.Sum256
       (take 10 (SHA256.Sum256 (Bytes.of_string "lxmf.delivery"))
        ++ take 16 (SHA256.Sum256 (x ++ e))))).
Proof.
  intros x e.
  exact (proj1 (derivation_chain_exact x e eq_refl eq_refl)).
Defined.

(** ** Clamping *)

Lemma testbit_248 j : 0 <= j < 8 -> Z.testbit 248 j = negb (j <=? 2).
Proof.
  intros H.
  assert (j = 0 \/ j = 1 \/ j = 2 \/ j = 3 \/ j = 4 \/ j = 5 \/ j = 6 \/ j = 7)
    as Hj by lia.
  repeat destruct Hj as [-> | Hj]; try subst j; reflexivity.
Qed.

Lemma testbit_127 j : 0 <= j < 8 -> Z.testbit 127 j = negb (j =? 7).
Proof.
  intros H.
  assert (j = 0 \/ j = 1 \/ j = 2 \/ j = 3 \/ j = 4 \/ j = 5 \/ j = 6 \/ j = 7)
    as Hj by lia.
  repeat destruct Hj as [-> | Hj]; try subst j; reflexivity.
Qed.

Lemma testbit_64 j : 0 <= j < 8 -> Z.testbit 64 j = (j =? 6).
Proof.
  intros H.
  assert (j = 0 \/ j = 1 \/ j = 2 \/ j = 3 \/ j = 4 \/ j = 5 \/ j = 6 \/ j = 7)
    as Hj by lia.
  repeat destruct Hj as [-> | Hj]; try subst j; reflexivity.
Qed.

Lemma clamp_lookup_0 k :
  clampX25519 k !! 0%nat = (fun b => Z.land b 248) <$> k !! 0%nat.
Proof.
  unfold clampX25519.
  rewrite !list_lookup_alter_ne by lia. apply list_lookup_alter_eq.
Qed.

Lemma clamp_lookup_31 k :
  clampX25519 k !! 31%nat = (fun b => Z.lor (Z.land b 127) 64) <$> k !! 31%nat.
Proof.
  unfold clampX25519.
  rewrite !list_lookup_alter_eq, list_lookup_alter_ne by lia.
  by destruct (k !! 31%nat).
Qed.

Lemma clamp_lookup_other k i :
  i <> 0%nat -> i <> 31%nat -> clampX25519 k !! i = k !! i.
Proof.
  intros H0 H31. unfold clampX25519.
  by rewrite !list_lookup_alter_ne by lia.
Qed.

Lemma length_clamp k : length (clampX25519 k) = length k.
Proof. unfold clampX25519. by rewrite !length_alter. Qed.

Lemma clamp_key_bit k i j :
  length k = 32%nat -> 0 <= j < 8 ->
  Spec.key_bit (clampX25519 k) i j =
    if decide (i = 0%nat) then Spec.key_bit k i j && negb (j <=? 2)
    else if decide (i = 31%nat) then (Spec.key_bit k i j && negb (j =? 7)) || (j =? 6)
    else Spec.key_bit k i j.
Proof.
  intros Hlen Hj. unfold Spec.key_bit.
  destruct (decide (i = 0%nat)) as [-> | H0].
  - rewrite clamp_lookup_0.
    destruct (lookup_lt_is_Some_2 k 0%nat ltac:(lia)) as [b ->]. simpl.
    by rewrite Z.land_spec, testbit_248.
  - destruct (decide (i = 31%nat)) as [-> | H31].
    + rewrite clamp_lookup_31.
      destruct (lookup_lt_is_Some_2 k 31%nat ltac:(lia)) as [b ->]. simpl.
      by rewrite Z.lor_spec, Z.land_spec, testbit_127, testbit_64.
    + by rewrite clamp_lookup_other.
Qed.

(** C4. For every 32-byte input, [clampX25519] clears bits 0-2 of byte
    0, clears bit 7 of byte 31, sets bit 6 of byte 31 and leaves every
    other bit as it was; hence the exchange private key of every
    identity a worker builds has these bits. *)
Theorem clampX25519_bits (k : list Z) :
  length k = 32%nat ->
  let k' := clampX25519 k in
  length k' = 32%nat
  /\ Spec.key_bit k' 0 0 = false /\ Spec.key_bit k' 0 1 = false
  /\ Spec.key_bit k' 0 2 = false
  /\ Spec.key_bit k' 31 7 = false /\ Spec.key_bit k' 31 6 = true
  /\ (forall i j, 0 <= j < 8 -> ~ Spec.clamped_position i j ->
        Spec.key_bit k' i j = Spec.key_bit k i j)
  /\ (forall sbm ed randBuf,
        let priv := X25519Private (newIdentity sbm ed randBuf) in
        length priv = 32%nat
        /\ Spec.key_bit priv 0 0 = false /\ Spec.key_bit priv 0 1 = false
        /\ Spec.key_bit priv 0 2 = false
        /\ Spec.key_bit priv 31 7 = false /\ Spec.key_bit priv 31 6 = true).
Proof.
  intros Hlen k'.
  assert (Hfix : forall k0, length k0 = 32%nat ->
    Spec.key_bit (clampX25519 k0) 0 0 = false
    /\ Spec.key_bit (clampX25519 k0) 0 1 = false
    /\ Spec.key_bit (clampX25519 k0) 0 2 = false
    /\ Spec.key_bit (clampX25519 k0) 31 7 = false
    /\ Spec.key_bit (clampX25519 k0) 31 6 = true).
  { intros k0 H0.
    rewrite !(clamp_key_bit k0) by (done || lia). simpl.
    rewrite !andb_false_r, orb_true_r. done. }
  split; [unfold k'; by rewrite length_clamp|].
  destruct (Hfix k Hlen) as (? & ? & ? & ? & ?).
  do 5 (split; [done|]).
  split.
  - intros i j Hj Hpos. unfold k'. rewrite clamp_key_bit by done.
    unfold Spec.clamped_position in Hpos.
    destruct (decide (i = 0%nat)) as [-> | ?].
    + destruct (Z.leb_spec j 2); [exfalso; apply Hpos; lia|].
      simpl. apply andb_true_r.
    + destruct (decide (i = 31%nat)) as [-> | ?]; [|done].
      destruct (Z.eqb_spec j 7); [exfalso; apply Hpos; lia|].
      destruct (Z.eqb_spec j 6); [exfalso; apply Hpos; lia|].
      simpl. by rewrite andb_true_r, orb_false_r.
  - intros sbm ed randBuf priv.
    assert (Hp : exists k0, length k0 = 32%nat /\ priv = clampX25519 k0).
    { eexists. split; [|unfold priv, newIdentity;
        destruct (deriveHashes _ _); reflexivity].
      rewrite length_copy_into; rewrite ?length_zeros; lia. }
    destruct Hp as (k0 & Hk0 & ->).
    split; [by rewrite length_clamp|]. by apply Hfix.
Qed.

Lemma clampX25519_bits_witness :
  Spec.key_bit (clampX25519 (replicate 32 255)) 0 0 = false
  /\ Spec.key_bit (clampX25519 (replicate 32 255)) 31 6 = true.
Proof.
  pose proof (clampX25519_bits (replicate 32 255) eq_refl) as H.
  cbv zeta in H.
  split; [exact (proj1 (proj2 H)) | exact (proj1 (proj2 (proj2 (proj2 (proj2 (proj2 H))))))].
Defined.

(** ** Parsing of the pattern flags *)

Lemma length_hexToNibbles_loop rem s i nibbles :
  length (hexToNibbles_loop rem s i nibbles) = length nibbles.
Proof.
  revert i nibbles. induction rem as [|rem IH]; intros i nibbles; simpl; [done|].
  destruct (s !! i) as [c|]; [|done].
  rewrite IH.
  repeat case_match; by rewrite ?length_insert.
Qed.

Lemma hexToNibbles_loop_lookup rem s i nibbles j :
  (i + rem = length s)%nat -> length nibbles = length s ->
  (forall k, (i <= k < length s)%nat -> nibbles !! k = Some 0) ->
  hexToNibbles_loop rem s i nibbles !! j =
    if decide (j < i)%nat then nibbles !! j
    else Spec.lower_hex_or_zero <$> s !! j.
Proof.
  revert i nibbles. induction rem as [|rem IH]; intros i nibbles Hrem Hlen Hzero; simpl.
  - case_decide; [done|].
    rewrite (lookup_ge_None_2 s j), (lookup_ge_None_2 nibbles j) by lia. done.
  - destruct (lookup_lt_is_Some_2 s i ltac:(lia)) as [c Hc]. rewrite Hc.
    rewrite IH; [| lia | repeat case_match; by rewrite ?length_insert |].
    + destruct (decide (j < S i)%nat) as [Hj|Hj].
      * destruct (decide (j = i)) as [-> | Hne].
        -- rewrite decide_False by lia. rewrite Hc. simpl.
           unfold Spec.lower_hex_or_zero, wrap8.
           destruct ((48 <=? c) && (c <=? 57)) eqn:Hd.
           { rewrite list_lookup_insert_eq by lia. f_equal.
             apply Z.mod_small. lia. }
           destruct ((97 <=? c) && (c <=? 102)) eqn:Hl.
           { rewrite list_lookup_insert_eq by lia. f_equal.
             rewrite (Z.mod_small (c - 97)) by lia.
             rewrite Z.mod_small; lia. }
           apply Hzero. lia.
        -- rewrite decide_True by lia.
           repeat case_match; by rewrite ?list_lookup_insert_ne by done.
      * by rewrite decide_False by lia.
    + intros k Hk.
      repeat case_match; rewrite ?list_lookup_insert_ne by lia; apply Hzero; lia.
Qed.

Lemma hexToNibbles_lookup s j :
  hexToNibbles s !! j = Spec.lower_hex_or_zero <$> s !! j.
Proof.
  unfold hexToNibbles.
  rewrite hexToNibbles_loop_lookup; rewrite ?length_zeros; try done.
  intros k Hk. unfold Bytes.zeros. apply lookup_replicate_2. lia.
Qed.

Lemma hexToNibbles_fmap s : hexToNibbles s = Spec.lower_hex_or_zero <$> s.
Proof.
  apply list_eq. intros j. rewrite hexToNibbles_lookup, list_lookup_fmap. done.
Qed.

(** ** Runes *)

Lemma lor_lower_bound a b : 0 <= a -> 0 <= b -> a <= Z.lor a b /\ b <= Z.lor a b.
Proof.
  intros Ha Hb.
  pose proof (Z.add_lor_land a b) as Hadd.
  pose proof (Z.sub_land_same_l a b) as Hsa.
  pose proof (Z.sub_land_same_l b a) as Hsb.
  rewrite (Z.land_comm b a) in Hsb.
  assert (0 <= Z.land a (Z.lnot b)) by (apply Z.land_nonneg; auto).
  assert (0 <= Z.land b (Z.lnot a)) by (apply Z.land_nonneg; auto).
  lia.
Qed.

Lemma hexRune_small c : hexRune c = true -> 48 <= c <= 102.
Proof. unfold hexRune. lia. Qed.

Lemma hexRune_hex_char c : hexRune c = true <-> Spec.hex_char c.
Proof.
  unfold hexRune, Spec.hex_char, Spec.hex_value.
  repeat case_match; split; intros Hx;
    try done; try lia; try (by destruct Hx); by eexists.
Qed.

Lemma land_low a n : 0 <= n -> 0 <= Z.land a (Z.ones n) < 2 ^ n.
Proof. intros Hn. rewrite Z.land_ones by done. apply Z.mod_pos_bound. lia. Qed.

(** A rune of two or more bytes, and [RuneError], are at least 128. *)
Lemma decodeRune_ascii b0 t :
  fst (UTF8.decodeRune (b0 :: t)) < 128 ->
  UTF8.decodeRune (b0 :: t) = (b0, 1%nat).
Proof.
  unfold UTF8.decodeRune, UTF8.cont, UTF8.between, UTF8.RuneError.
  destruct (Z.ltb_spec b0 128) as [|Hb0]; [done|].
  pose proof (land_low b0 5 ltac:(lia)) as H5. pose proof (Z.land_ones b0 5 ltac:(lia)) as E5.
  pose proof (land_low b0 4 ltac:(lia)) as H4. pose proof (Z.land_ones b0 4 ltac:(lia)) as E4.
  pose proof (land_low b0 3 ltac:(lia)) as H3. pose proof (Z.land_ones b0 3 ltac:(lia)) as E3.
  change (Z.ones 5) with 31 in *. change (Z.ones 4) with 15 in *.
  change (Z.ones 3) with 7 in *.
  destruct ((194 <=? b0) && (b0 <=? 223)) eqn:H2.
  { destruct t as [|b1 t]; [simpl fst; lia|].
    destruct ((128 <=? b1) && (b1 <=? 191)); [|simpl fst; lia].
    simpl fst. intros Hr. exfalso.
    pose proof (land_low b1 6 ltac:(lia)) as Hb1. change (Z.ones 6) with 63 in Hb1.
    rewrite Z.shiftl_mul_pow2 in Hr by lia.
    pose proof (lor_lower_bound (Z.land b0 31 * 2 ^ 6) (Z.land b1 63)
                  ltac:(lia) ltac:(lia)).
    assert (2 <= Z.land b0 31) by (rewrite E5; Z.to_euclidean_division_equations; lia).
    lia. }
  destruct ((224 <=? b0) && (b0 <=? 239)) eqn:H3b.
  { destruct t as [|b1 [|b2 t]]; try (simpl fst; lia).
    match goal with |- context [if ?c then _ else _] => destruct c eqn:Hc end;
      [|simpl fst; lia].
    simpl fst. intros Hr. exfalso.
    pose proof (land_low b1 6 ltac:(lia)) as Hb1. pose proof (Z.land_ones b1 6 ltac:(lia)) as E1.
    pose proof (land_low b2 6 ltac:(lia)) as Hb2.
    change (Z.ones 6) with 63 in *.
    rewrite !Z.shiftl_mul_pow2 in Hr by lia.
    pose proof (lor_lower_bound (Z.land b0 15 * 2 ^ 12) (Z.land b1 63 * 2 ^ 6)
                  ltac:(lia) ltac:(lia)).
    pose proof (lor_lower_bound
                  (Z.lor (Z.land b0 15 * 2 ^ 12) (Z.land b1 63 * 2 ^ 6))
                  (Z.land b2 63) ltac:(lia) ltac:(lia)).
    destruct (Z.eqb_spec b0 224) as [-> | Hne].
    - assert (32 <= Z.land b1 63)
        by (rewrite E1; destruct (Z.eqb_spec 224 237);
            Z.to_euclidean_division_equations; lia).
      lia.
    - assert (1 <= Z.land b0 15) by (rewrite E4; Z.to_euclidean_division_equations; lia).
      lia. }
  destruct ((240 <=? b0) && (b0 <=? 244)) eqn:H4b.
  { destruct t as [|b1 [|b2 [|b3 t]]]; try (simpl fst; lia).
    match goal with |- context [if ?c then _ else _] => destruct c eqn:Hc end;
      [|simpl fst; lia].
    simpl fst. intros Hr. exfalso.
    pose proof (land_low b1 6 ltac:(lia)) as Hb1. pose proof (Z.land_ones b1 6 ltac:(lia)) as E1.
    pose proof (land_low b2 6 ltac:(lia)) as Hb2.
    pose proof (land_low b3 6 ltac:(lia)) as Hb3.
    change (Z.ones 6) with 63 in *.
    rewrite !Z.shiftl_mul_pow2 in Hr by lia.
    pose proof (lor_lower_bound (Z.land b0 7 * 2 ^ 18) (Z.land b1 63 * 2 ^ 12)
                  ltac:(lia) ltac:(lia)).
    pose proof (lor_lower_bound
                  (Z.lor (Z.land b0 7 * 2 ^ 18) (Z.land b1 63 * 2 ^ 12))
                  (Z.land b2 63 * 2 ^ 6) ltac:(lia) ltac:(lia)).
    pose proof (lor_lower_bound
                  (Z.lor (Z.lor (Z.land b0 7 * 2 ^ 18) (Z.land b1 63 * 2 ^ 12))
                         (Z.land b2 63 * 2 ^ 6))
                  (Z.land b3 63) ltac:(lia) ltac:(lia)).
    destruct (Z.eqb_spec b0 240) as [-> | Hne].
    - assert (16 <= Z.land b1 63)
        by (rewrite E1; destruct (Z.eqb_spec 240 244);
            Z.to_euclidean_division_equations; lia).
      lia.
    - assert (1 <= Z.land b0 7) by (rewrite E3; Z.to_euclidean_division_equations; lia).
      lia. }
  simpl fst. lia.
Qed.

Lemma decodeRune_width b0 t : (1 <= snd (UTF8.decodeRune (b0 :: t)))%nat.
Proof.
  unfold UTF8.decodeRune.
  repeat case_match; simpl; lia.
Qed.

Lemma length_runes fuel s : (length (UTF8.runes fuel s) <= length s)%nat.
Proof.
  revert s. induction fuel as [|fuel IH]; intros s; simpl; [lia|].
  destruct s as [|b0 t]; [simpl; lia|].
  pose proof (decodeRune_width b0 t) as Hw.
  destruct (UTF8.decodeRune (b0 :: t)) as [r w]. simpl in Hw.
  simpl length. specialize (IH (drop w (b0 :: t))).
  rewrite length_drop in IH. simpl in IH. lia.
Qed.

Lemma isHex_loop_forallb rs : isHex_loop rs = forallb hexRune rs.
Proof. induction rs as [|c rs IH]; simpl; [done|]. rewrite IH. by destruct (hexRune c). Qed.

Lemma runes_all_hex fuel s :
  (length s <= fuel)%nat ->
  forallb hexRune (UTF8.runes fuel s) = true ->
  UTF8.runes fuel s = s /\ forallb hexRune s = true.
Proof.
  revert s. induction fuel as [|fuel IH]; intros s Hlen Hall.
  - destruct s; [done|simpl in Hlen; lia].
  - destruct s as [|b0 t]; [done|].
    simpl in Hall |- *.
    destruct (UTF8.decodeRune (b0 :: t)) as [r w] eqn:Hdec.
    simpl in Hall. apply andb_true_iff in Hall as [Hr Hrest].
    pose proof (hexRune_small r Hr) as Hsmall.
    pose proof (decodeRune_ascii b0 t) as Hascii.
    rewrite Hdec in Hascii. simpl in Hascii.
    specialize (Hascii ltac:(lia)). injection Hascii as -> ->.
    simpl drop in *. rewrite drop_0 in *.
    simpl in Hlen.
    destruct (IH t ltac:(lia) Hrest) as [-> ->].
    by rewrite Hr.
Qed.

Lemma isHex_bytes s : isHex s = true -> UTF8.range s = s /\ forallb hexRune s = true.
Proof.
  unfold isHex, UTF8.range. rewrite isHex_loop_forallb.
  apply runes_all_hex. done.
Qed.

Lemma hex_bytes_isHex s : forallb hexRune s = true -> isHex s = true.
Proof.
  unfold isHex, UTF8.range. rewrite isHex_loop_forallb.
  assert (forall fuel t, (length t <= fuel)%nat -> forallb hexRune t = true ->
            UTF8.runes fuel t = t) as Hrun.
  { induction fuel as [|fuel IH]; intros t Hlen Ht.
    - destruct t; [done|simpl in Hlen; lia].
    - destruct t as [|b0 t]; [done|].
      simpl in Ht. apply andb_true_iff in Ht as [Hb Ht].
      pose proof (hexRune_small b0 Hb).
      simpl. unfold UTF8.decodeRune. destruct (Z.ltb_spec b0 128); [|lia].
      simpl. rewrite drop_0. simpl in Hlen. rewrite IH by (done || lia). done. }
  intros H. rewrite Hrun by done. done.
Qed.

Lemma hex_lower_value c :
  hexRune c = true ->
  Some (Spec.lower_hex_or_zero (lowerByte c)) = Spec.hex_value c.
Proof.
  unfold hexRune, Spec.lower_hex_or_zero, lowerByte, Spec.hex_value.
  intros H. repeat case_match; try lia; f_equal; lia.
Qed.

Lemma ToLower_hex ul s :
  forallb hexRune s = true -> ToLower ul s = lowerByte <$> s.
Proof.
  intros H. unfold ToLower.
  replace (forallb (fun c => c <? 128) s) with true; [done|].
  symmetry. apply forallb_forall. intros c Hc.
  pose proof (proj1 (forallb_forall _ _) H c Hc) as Hh.
  apply hexRune_small in Hh. lia.
Qed.

Lemma parsePattern_hex ul s :
  isHex s = true -> Some <$> parsePattern ul s = Spec.hex_value <$> s.
Proof.
  intros H. apply isHex_bytes in H as [_ H].
  unfold parsePattern. rewrite ToLower_hex by done.
  destruct s as [|c s]; [done|].
  change (nonempty (lowerByte <$> c :: s)) with true. cbv iota.
  rewrite hexToNibbles_fmap, <- !list_fmap_compose.
  apply list_eq. intros i. rewrite !list_lookup_fmap.
  destruct ((c :: s) !! i) as [x|] eqn:Hx; [|done]. simpl.
  f_equal. apply hex_lower_value.
  apply (proj1 (forallb_forall _ _) H). eapply list_elem_of_In, list_elem_of_lookup_2, Hx.
Qed.

(** C10. For every input string [hexToNibbles] returns a slice of the
    same length; a byte '0'-'9' or 'a'-'f' yields its hex value, every
    other byte yields 0 with no error, including 'A'-'F', which
    [isHex] accepts; after [main]'s lower-casing every validated flag
    parses to the hex values of its characters. *)
Theorem hexToNibbles_silent_zero (s : list Z) :
  length (hexToNibbles s) = length s
  /\ (forall i c, s !! i = Some c ->
        hexToNibbles s !! i = Some (Spec.lower_hex_or_zero c)
        /\ (48 <= c <= 57 -> Spec.lower_hex_or_zero c = c - 48)
        /\ (97 <= c <= 102 -> Spec.lower_hex_or_zero c = c - 97 + 10)
        /\ (~ 48 <= c <= 57 -> ~ 97 <= c <= 102 -> Spec.lower_hex_or_zero c = 0)
        /\ 0 <= Spec.lower_hex_or_zero c <= 15)
  /\ (forall c, 65 <= c <= 70 ->
        hexRune c = true /\ hexToNibbles [c] = [0]
        /\ Spec.hex_value c = Some (c - 55))
  /\ (forall unicodeLower, isHex s = true ->
        Some <$> parsePattern unicodeLower s = Spec.hex_value <$> s).
Proof.
  split.
  { unfold hexToNibbles. by rewrite length_hexToNibbles_loop, length_zeros. }
  split.
  { intros i c Hc. rewrite hexToNibbles_lookup, Hc.
    split; [done|].
    unfold Spec.lower_hex_or_zero.
    repeat split; intros; repeat case_match; lia. }
  split.
  { intros c Hc. rewrite hexToNibbles_fmap.
    unfold hexRune, Spec.lower_hex_or_zero, Spec.hex_value. simpl.
    repeat split; repeat case_match; try lia; done. }
  intros ul H. by apply parsePattern_hex.
Qed.

Lemma hexToNibbles_silent_zero_witness :
  Some <$> parsePattern (fun s => s) (Bytes.of_string "CaFe09")
    = Spec.hex_value <$> Bytes.of_string "CaFe09"
  /\ hexToNibbles (Bytes.of_string "CaFe09") = [0; 10; 0; 14; 0; 9].
Proof.
  split; [|reflexivity].
  exact (proj2 (proj2 (proj2 (hexToNibbles_silent_zero (Bytes.of_string "CaFe09"))))
           (fun s => s) eq_refl).
Defined.

(** ** Validation *)

Lemma exists_not_hex rs :
  Exists (fun c => ~ Spec.hex_char c) rs <-> forallb hexRune rs = false.
Proof.
  induction rs as [|c rs IH]; simpl.
  - split; [inversion 1|done].
  - rewrite Exists_cons, IH, andb_false_iff.
    pose proof (hexRune_hex_char c) as Hc.
    destruct (hexRune c); split; intros [H|H]; auto.
    + exfalso. apply H, Hc. done.
    + done.
    + left. intros Hh. apply Hc in Hh. done.
Qed.

Lemma bad_pattern_code s :
  Spec.bad_pattern s <-> 32 < len s \/ isHex s = false.
Proof.
  unfold Spec.bad_pattern, len.
  rewrite exists_not_hex. fold (isHex_loop (UTF8.range s)).
  rewrite <- isHex_loop_forallb. fold (isHex s).
  split.
  - intros [H | H]; [by right|]. left.
    pose proof (length_runes (length s) s). unfold UTF8.range in H. lia.
  - intros [H | H]; [|by left].
    destruct (isHex s) eqn:Hhex; [|by left]. right.
    apply isHex_bytes in Hhex as [-> _]. lia.
Qed.

Lemma nonempty_spec s : nonempty s = false <-> s = [].
Proof. destruct s; simpl; split; congruence. Qed.

Lemma isHex_nil : isHex [] = true.
Proof. reflexivity. Qed.

Lemma validateInputs_None prefix postfix workers :
  validateInputs prefix postfix workers = None <->
  len prefix <= 32 /\ isHex prefix = true /\ len postfix <= 32
  /\ isHex postfix = true /\ ~ (prefix = [] /\ postfix = []) /\ 1 <= workers.
Proof.
  unfold validateInputs.
  destruct (nonempty prefix) eqn:Np; destruct (nonempty postfix) eqn:Nq;
    try (apply nonempty_spec in Np; subst prefix);
    try (apply nonempty_spec in Nq; subst postfix);
    rewrite ?isHex_nil; change (len []) with 0; simpl andb; cbv iota.
  all: repeat match goal with
       | |- context [32 <? ?x] => destruct (Z.ltb_spec 32 x); cbv iota
       | |- context [negb (isHex ?x)] => destruct (isHex x); simpl negb; cbv iota
       | |- context [?w <? 1] => destruct (Z.ltb_spec w 1); cbv iota
       end.
  all: split; try done; try lia; try (intros (? & ? & ? & ? & ? & ?); try done; try lia).
  all: try (intros _; repeat split; try done; try lia; intros [? ?]; by subst).
  all: tauto.
Qed.

(** C6. [validateInputs] returns an error exactly when a pattern has a
    non-hex character or more than 32 characters, or both patterns are
    empty, or the worker count is below 1; otherwise it returns [nil].
    [main] checks this before it sets up any worker. *)
Theorem validateInputs_exact (prefix postfix : list Z) (workers : Z) :
  (is_Some (validateInputs prefix postfix workers)
     <-> Spec.invalid_configuration prefix postfix workers)
  /\ (validateInputs prefix postfix workers = None
     <-> ~ Spec.invalid_configuration prefix postfix workers)
  /\ (forall unicodeLower,
        match main_start unicodeLower prefix postfix workers with
        | Rejected _ => Spec.invalid_configuration prefix postfix workers
        | Searching _ _ s =>
            ~ Spec.invalid_configuration prefix postfix workers
            /\ Forall (fun pc => pc = WIdle) (pool s)
        end).
Proof.
  assert (Hiff : is_Some (validateInputs prefix postfix workers)
     <-> Spec.invalid_configuration prefix postfix workers).
  { rewrite <- not_eq_None_Some, validateInputs_None.
    unfold Spec.invalid_configuration. rewrite !bad_pattern_code.
    split.
    - intros Hn.
      destruct (Z_lt_dec 32 (len prefix)); [tauto|].
      destruct (isHex prefix) eqn:Hhp; [|tauto].
      destruct (Z_lt_dec 32 (len postfix)); [tauto|].
      destruct (isHex postfix) eqn:Hhq; [|tauto].
      destruct (decide (prefix = [] /\ postfix = [])); [tauto|].
      destruct (Z_lt_dec workers 1); [tauto|].
      exfalso. apply Hn. repeat split; try done; lia.
    - intros Hbad (H1 & H2 & H3 & H4 & H5 & H6).
      destruct Hbad as [[?|?]|[[?|?]|[?|?]]]; try lia; try congruence; tauto. }
  split; [exact Hiff|].
  split.
  { rewrite <- Hiff. rewrite <- not_eq_None_Some. split; [intros -> H; by apply H|].
    intros H. destruct (validateInputs prefix postfix workers); [|done].
    exfalso. by apply H. }
  intros ul. unfold main_start.
  destruct (validateInputs prefix postfix workers) as [err|] eqn:Hv.
  - apply Hiff. by eexists.
  - split.
    + rewrite <- Hiff. intros [? ?]. done.
    + simpl. apply Forall_replicate. done.
Qed.

(** ** Pattern matching *)

Lemma high_nibble b : Bytes.is_byte b -> Z.land (Z.shiftr b 4) 15 = b / 16.
Proof.
  intros Hb. unfold Bytes.is_byte in Hb.
  rewrite Z.shiftr_div_pow2 by lia.
  change 15 with (Z.ones 4). rewrite Z.land_ones by lia.
  change (2 ^ 4) with 16. apply Z.mod_small.
  Z.to_euclidean_division_equations; lia.
Qed.

Lemma low_nibble b : Z.land b 15 = b mod 16.
Proof. change 15 with (Z.ones 4). by rewrite Z.land_ones by lia. Qed.

Lemma index_nat (s : list Z) (k : nat) :
  (k < length s)%nat -> Bytes.index s (Z.of_nat k) = s !! k.
Proof.
  intros H. unfold Bytes.index.
  destruct (Z.leb_spec 0 (Z.of_nat k)); [|lia].
  destruct (Z.ltb_spec (Z.of_nat k) (Z.of_nat (length s))); [|lia].
  simpl. by rewrite Nat2Z.id.
Qed.

Lemma quot2_nat (k : nat) : Z.quot (Z.of_nat k) 2 = Z.of_nat (k / 2).
Proof. rewrite Z.quot_div_nonneg by lia. by rewrite Nat2Z.inj_div. Qed.

Lemma rem2_even (k : nat) : (Z.rem (Z.of_nat k) 2 =? 0) = Nat.even k.
Proof.
  rewrite Z.rem_mod_nonneg by lia.
  destruct (Nat.even k) eqn:E.
  - apply Nat.even_spec in E as [m ->]. apply Z.eqb_eq.
    Z.to_euclidean_division_equations; lia.
  - apply Z.eqb_neq. rewrite <- Nat.negb_odd in E. apply negb_false_iff in E.
    apply Nat.odd_spec in E as [m ->].
    Z.to_euclidean_division_equations; lia.
Qed.

Section Matching.

Variable addr : list Z.
Hypothesis addr_len : length addr = 16%nat.
Hypothesis addr_bytes : Bytes.all_bytes addr.

(** The nibble read by one iteration of either loop is the nibble the
    specification names. *)
Lemma loop_body_nibble (k : nat) :
  (k < 32)%nat ->
  (b ← Bytes.index addr (Z.quot (Z.of_nat k) 2);
   Some (if Z.rem (Z.of_nat k) 2 =? 0
         then Z.land (Z.shiftr b 4) 15 else Z.land b 15))
  = Spec.nibble addr k
  /\ is_Some (Spec.nibble addr k).
Proof.
  intros Hk. unfold Spec.nibble.
  assert (k / 2 < 16)%nat as Hlt by (apply Nat.Div0.div_lt_upper_bound; lia).
  rewrite quot2_nat, index_nat by lia.
  destruct (lookup_lt_is_Some_2 addr (k / 2)%nat ltac:(lia)) as [b Hb].
  rewrite Hb. simpl. split; [|by eexists].
  rewrite rem2_even.
  assert (Bytes.is_byte b)
    by (eapply Forall_lookup_1; [exact addr_bytes|exact Hb]).
  by rewrite high_nibble, low_nibble.
Qed.

Lemma postfix_loop_spec (pat : list Z) (st : nat) :
  (st + length pat <= 32)%nat ->
  forall rem j, (j + rem = length pat)%nat ->
  exists b,
    postfix_loop rem addr pat (Z.of_nat st) (Z.of_nat j) = Some b
    /\ (b = true <->
        forall k, (j <= k < length pat)%nat ->
                  Spec.nibble addr (st + k) = pat !! k).
Proof.
  intros Hfit. induction rem as [|rem IH]; intros j Hj.
  - exists true. split; [done|]. split; [|done]. intros _ k Hk. lia.
  - cbn [postfix_loop]. cbv zeta.
    replace (Z.of_nat st + Z.of_nat j) with (Z.of_nat (st + j)) by lia.
    destruct (loop_body_nibble (st + j) ltac:(lia)) as [Hbody [n Hn]].
    rewrite Hn in Hbody.
    destruct (Bytes.index addr (Z.quot (Z.of_nat (st + j)) 2)) as [b|] eqn:Hb;
      [|done].
    cbn [mbind option_bind] in Hbody |- *. injection Hbody as Hbody.
    rewrite Hbody. rewrite index_nat by lia.
    destruct (lookup_lt_is_Some_2 pat j ltac:(lia)) as [p Hp].
    rewrite Hp. cbn [mbind option_bind].
    destruct (Z.eqb_spec n p) as [-> | Hne]; cbn [negb].
    + replace (Z.of_nat j + 1) with (Z.of_nat (S j)) by lia.
      destruct (IH (S j) ltac:(lia)) as (b' & Hrun & Hiff).
      exists b'. split; [done|]. rewrite Hiff. split.
      * intros H k Hk. destruct (decide (k = j)) as [-> | ?].
        -- by rewrite Hn, Hp.
        -- apply H. lia.
      * intros H k Hk. apply H. lia.
    + exists false. split; [done|]. split; [done|].
      intros H. specialize (H j ltac:(lia)). congruence.
Qed.

Lemma prefix_as_postfix (pat : list Z) rem i :
  prefix_loop rem addr pat i = postfix_loop rem addr pat 0 i.
Proof.
  revert i. induction rem as [|rem IH]; intros i; [done|].
  cbn [prefix_loop postfix_loop]. cbv zeta. rewrite Z.add_0_l.
  destruct (Bytes.index addr (Z.quot i 2)); [|done]. cbn [mbind option_bind].
  destruct (Bytes.index pat i); [|done]. cbn [mbind option_bind].
  by rewrite IH.
Qed.

Lemma matchesPattern_spec (prefixNibbles postfixNibbles : list Z) :
  (length prefixNibbles <= 32)%nat -> (length postfixNibbles <= 32)%nat ->
  exists b,
    matchesPattern prefixNibbles postfixNibbles addr = Some b
    /\ (b = true <-> Spec.matches prefixNibbles postfixNibbles addr).
Proof.
  intros Hpre Hpost. unfold matchesPattern, Spec.matches.
  destruct (postfix_loop_spec prefixNibbles 0 ltac:(lia) (length prefixNibbles) 0%nat
              ltac:(lia)) as (b1 & Hrun1 & Hiff1).
  destruct (postfix_loop_spec postfixNibbles (32 - length postfixNibbles) ltac:(lia)
              (length postfixNibbles) 0%nat ltac:(lia)) as (b2 & Hrun2 & Hiff2).
  assert ((if 0 <? len prefixNibbles
           then prefix_loop (length prefixNibbles) addr prefixNibbles 0
           else Some true) = Some b1) as ->.
  { rewrite prefix_as_postfix. change 0 with (Z.of_nat 0) at 2 3.
    rewrite Hrun1. unfold len.
    destruct (Z.ltb_spec 0 (Z.of_nat (length prefixNibbles))); [done|].
    destruct prefixNibbles; [|simpl in *; lia].
    simpl in Hrun1. done. }
  cbn [mbind option_bind].
  assert ((if 0 <? len postfixNibbles
           then postfix_loop (length postfixNibbles) addr postfixNibbles
                  (len addr * 2 - len postfixNibbles) 0
           else Some true) = Some b2) as Hsecond.
  { unfold len. rewrite addr_len.
    replace (Z.of_nat 16 * 2 - Z.of_nat (length postfixNibbles))
      with (Z.of_nat (32 - length postfixNibbles)) by lia.
    change 0 with (Z.of_nat 0) at 2. rewrite Hrun2.
    destruct (Z.ltb_spec 0 (Z.of_nat (length postfixNibbles))); [done|].
    destruct postfixNibbles; [|simpl in *; lia].
    simpl in Hrun2. done. }
  destruct b1; cbn [negb].
  - exists b2. split; [exact Hsecond|].
    rewrite Hiff2. split.
    + intros H. split; [|intros j Hj; apply H; lia].
      intros i Hi. apply (proj1 Hiff1 eq_refl). lia.
    + intros [_ H] k Hk. apply H. lia.
  - exists false. split; [done|]. split; [done|].
    intros [H _]. apply Hiff1. intros k Hk. apply H. lia.
Qed.

End Matching.

(** C2. For every 16-byte address and every pattern of at most 32
    prefix nibbles and at most 32 suffix nibbles, [matchesPattern]
    returns (it does not panic) and returns true exactly when nibble [i]
    of the address equals prefix nibble [i] for every [i] below the
    prefix length and nibble [32 - suffix length + j] equals suffix
    nibble [j] for every [j] below the suffix length, a nibble being the
    high half of byte [k / 2] for even [k] and the low half for odd
    [k]; an empty sequence passes its check. *)
Theorem matchesPattern_iff (addr prefixNibbles postfixNibbles : list Z) :
  length addr = 16%nat -> Bytes.all_bytes addr ->
  (length prefixNibbles <= 32)%nat -> (length postfixNibbles <= 32)%nat ->
  (exists b, matchesPattern prefixNibbles postfixNibbles addr = Some b)
  /\ (matchesPattern prefixNibbles postfixNibbles addr = Some true
      <-> (forall i, (i < length prefixNibbles)%nat ->
             Spec.nibble addr i = prefixNibbles !! i)
          /\ (forall j, (j < length postfixNibbles)%nat ->
             Spec.nibble addr (32 - length postfixNibbles + j)
               = postfixNibbles !! j))
  /\ (forall k, (k < 32)%nat ->
        exists b, addr !! (k / 2)%nat = Some b
          /\ Spec.nibble addr k = Some (if Nat.even k then b / 16 else b mod 16))
  /\ (prefixNibbles = [] -> postfixNibbles = [] ->
        matchesPattern prefixNibbles postfixNibbles addr = Some true).
Proof.
  intros Hlen Hbytes Hpre Hpost.
  destruct (matchesPattern_spec addr Hlen Hbytes prefixNibbles postfixNibbles Hpre Hpost)
    as (b & Hrun & Hiff).
  split; [by exists b|].
  split.
  { rewrite Hrun. fold (Spec.matches prefixNibbles postfixNibbles addr).
    rewrite <- Hiff. split; congruence. }
  split.
  { intros k Hk. unfold Spec.nibble.
    assert (k / 2 < 16)%nat as Hlt by (apply Nat.Div0.div_lt_upper_bound; lia).
    destruct (lookup_lt_is_Some_2 addr (k / 2)%nat ltac:(lia)) as [x Hx].
    exists x. by rewrite Hx. }
  intros -> ->. reflexivity.
Qed.

Lemma matchesPattern_iff_witness :
  matchesPattern [12; 10; 15] [11; 14] ([202; 254] ++ replicate 13 0 ++ [190]) = Some true
  <-> (forall i, (i < 3)%nat ->
         Spec.nibble ([202; 254] ++ replicate 13 0 ++ [190]) i = [12; 10; 15] !! i)
      /\ (forall j, (j < 2)%nat ->
         Spec.nibble ([202; 254] ++ replicate 13 0 ++ [190]) (32 - 2 + j) = [11; 14] !! j).
Proof.
  apply (matchesPattern_iff ([202; 254] ++ replicate 13 0 ++ [190]) [12; 10; 15] [11; 14]).
  - reflexivity.
  - unfold Bytes.all_bytes, Bytes.is_byte. simpl. repeat constructor; lia.
  - simpl. lia.
  - simpl. lia.
Defined.

(** ** The identity file *)

Lemma string_length_app (s1 s2 : string) :
  String.length (s1 +:+ s2) = (String.length s1 + String.length s2)%nat.
Proof.
  induction s1 as [|a s1 IH]; [done|].
  change (String a s1 +:+ s2) with (String a (s1 +:+ s2)).
  simpl. by rewrite IH.
Qed.

Lemma info_path_distinct (path : string) : path <> (path +:+ ".txt")%string.
Proof.
  intros H. apply (f_equal String.length) in H.
  rewrite string_length_app in H. simpl in H. lia.
Qed.

Lemma next_fault_files w : files (snd (next_fault w)) = files w.
Proof. unfold next_fault. by destruct (faults w). Qed.

Lemma os_Create_ok path w w' :
  os_Create path w = (true, w') -> files w' = <[path := []]> (files w).
Proof.
  unfold os_Create. pose proof (next_fault_files w) as Hf.
  destruct (next_fault w) as [[|n] w0]; [|done].
  intros [= <-]. simpl in *. by rewrite Hf.
Qed.

Lemma file_Write_ok path b w w' :
  file_Write path b w = (true, w') ->
  files w' = <[path := default [] (files w !! path) ++ b]> (files w).
Proof.
  unfold file_Write. pose proof (next_fault_files w) as Hf.
  destruct (next_fault w) as [[|n] w0]; [|done].
  intros [= <-]. simpl in *. by rewrite Hf.
Qed.

Lemma file_Write_other path p b w :
  p <> path -> files (snd (file_Write path b w)) !! p = files w !! p.
Proof.
  intros Hne. unfold file_Write. pose proof (next_fault_files w) as Hf.
  destruct (next_fault w) as [[|n] w0]; simpl in *;
    rewrite lookup_insert_ne by done; by rewrite Hf.
Qed.

Lemma write_all_other path p chunks w :
  p <> path ->
  files (fold_left (fun w chunk => snd (file_Write path chunk w)) chunks w) !! p
    = files w !! p.
Proof.
  intros Hne. revert w. induction chunks as [|c chunks IH]; intros w; [done|].
  simpl. rewrite IH. by apply file_Write_other.
Qed.

Lemma no_fault_Create path w :
  faults w = [] -> exists w', os_Create path w = (true, w') /\ faults w' = [].
Proof.
  intros H. unfold os_Create, next_fault. rewrite H. eexists. split; [done|]. done.
Qed.

Lemma no_fault_Write path b w :
  faults w = [] -> exists w', file_Write path b w = (true, w') /\ faults w' = [].
Proof.
  intros H. unfold file_Write, next_fault. rewrite H. eexists. split; [done|]. done.
Qed.

(** C9. Whenever [saveIdentity] returns [nil], the binary file holds
    exactly 64 bytes: the X25519 private key in bytes 0-31, then the
    Ed25519 seed in bytes 32-63, and nothing else; with an environment
    that raises no error it does return [nil]. *)
Theorem saveIdentity_binary_layout
    (base64_Std base32_Std : list Z -> list Z)
    (identity : Identity) (path : string) (w : World) :
  length (X25519Private identity) = 32%nat ->
  length (Ed25519Seed identity) = 32%nat ->
  (faults w = [] -> (saveIdentity base64_Std base32_Std identity path w).1 = None)
  /\ ((saveIdentity base64_Std base32_Std identity path w).1 = None ->
      exists content,
        files (saveIdentity base64_Std base32_Std identity path w).2 !! path
          = Some content
        /\ content = X25519Private identity ++ Ed25519Seed identity
        /\ length content = 64%nat
        /\ take 32 content = X25519Private identity
        /\ drop 32 content = Ed25519Seed identity).
Proof.
  intros Hpriv Hseed. split.
  - intros Hnone. unfold saveIdentity.
    destruct (no_fault_Create path w Hnone) as (w1 & -> & H1). cbn [negb].
    destruct (no_fault_Write path (X25519Private identity) w1 H1) as (w2 & -> & H2).
    cbn [negb].
    destruct (no_fault_Write path (Ed25519Seed identity) w2 H2) as (w3 & -> & H3).
    cbn [negb].
    destruct (no_fault_Create (path +:+ ".txt") w3 H3) as (w4 & -> & H4).
    done.
  - unfold saveIdentity.
    destruct (os_Create path w) as [[|] w1] eqn:E1; cbn [negb]; [|done].
    destruct (file_Write path (X25519Private identity) w1) as [[|] w2] eqn:E2;
      cbn [negb]; [|done].
    destruct (file_Write path (Ed25519Seed identity) w2) as [[|] w3] eqn:E3;
      cbn [negb]; [|done].
    destruct (os_Create (path +:+ ".txt") w3) as [[|] w4] eqn:E4; cbn [negb]; [|done].
    intros _. cbn [snd].
    exists (X25519Private identity ++ Ed25519Seed identity).
    split.
    + rewrite write_all_other by apply info_path_distinct.
      rewrite (os_Create_ok _ _ _ E4).
      rewrite lookup_insert_ne by (apply not_eq_sym, info_path_distinct).
      rewrite (file_Write_ok _ _ _ _ E3), lookup_insert_eq.
      rewrite (file_Write_ok _ _ _ _ E2), lookup_insert_eq.
      rewrite (os_Create_ok _ _ _ E1), lookup_insert_eq. done.
    + split; [done|].
      split; [rewrite length_app; lia|].
      split; [by rewrite take_app_length' | by rewrite drop_app_length'].
Qed.

Lemma saveIdentity_binary_layout_witness :
  files (saveIdentity (fun b => b) (fun b => b) sample_identity "identity"
           (mkWorld ∅ [])).2 !! "identity"%string
  = Some (replicate 32 1 ++ replicate 32 3).
Proof.
  destruct (saveIdentity_binary_layout (fun b => b) (fun b => b) sample_identity
              "identity" (mkWorld ∅ []) eq_refl eq_refl) as [Hok Hlayout].
  destruct (Hlayout (Hok eq_refl)) as (content & Hfile & -> & _).
  exact Hfile.
Defined.

(** ** The search: invariants of the worker pool *)

Lemma total_insert (f : wpc -> Z) (p : list wpc) (i : nat) (pc pc' : wpc) :
  p !! i = Some pc -> total f (<[i := pc']> p) = total f p - f pc + f pc'.
Proof.
  revert i. induction p as [|q p IH]; intros i Hi; [done|].
  destruct i as [|i]; simpl in *.
  - injection Hi as ->. lia.
  - rewrite (IH i Hi). lia.
Qed.

Lemma total_active_zero (p : list wpc) :
  total active p = 0 -> Forall (fun pc => active pc = 0) p.
Proof.
  assert (forall q, 0 <= total active q) as Hnn.
  { induction q as [|pc q IH]; simpl; [lia|]. destruct pc; simpl; lia. }
  induction p as [|pc p IH]; simpl; intros H; [constructor|].
  pose proof (Hnn p).
  assert (0 <= active pc) by (destruct pc; simpl; lia).
  constructor; [lia|]. apply IH. lia.
Qed.

Lemma wrap64_succ (a : Z) : wrap64 (wrap64 a + 1) = wrap64 (a + 1).
Proof. unfold wrap64. by rewrite Z.add_mod_idemp_l by lia. Qed.

Lemma wrap64_range (a : Z) : 0 <= wrap64 a < 2 ^ 64.
Proof. unfold wrap64. apply Z.mod_pos_bound. lia. Qed.

Section Search.

Variable ScalarBaseMult : list Z -> list Z.
Variable Ed25519PublicFromSeed : list Z -> list Z.
Variable prefixNibbles postfixNibbles : list Z.
Variable workers : nat.

Local Abbreviation newIdentity' := (newIdentity ScalarBaseMult Ed25519PublicFromSeed).
Local Abbreviation worker_step' :=
  (worker_step ScalarBaseMult Ed25519PublicFromSeed prefixNibbles postfixNibbles).
Local Abbreviation worker_run' :=
  (worker_run ScalarBaseMult Ed25519PublicFromSeed prefixNibbles postfixNibbles).
Local Abbreviation run' :=
  (run ScalarBaseMult Ed25519PublicFromSeed prefixNibbles postfixNibbles workers).
Local Abbreviation exec' :=
  (exec ScalarBaseMult Ed25519PublicFromSeed prefixNibbles postfixNibbles workers).
Local Abbreviation step' :=
  (step ScalarBaseMult Ed25519PublicFromSeed prefixNibbles postfixNibbles workers).
Local Abbreviation reachable' :=
  (reachable ScalarBaseMult Ed25519PublicFromSeed prefixNibbles postfixNibbles workers).
Local Abbreviation invariant' :=
  (invariant ScalarBaseMult Ed25519PublicFromSeed prefixNibbles postfixNibbles workers).
Local Abbreviation derived' := (derived ScalarBaseMult Ed25519PublicFromSeed).
Local Abbreviation discovered' :=
  (discovered ScalarBaseMult Ed25519PublicFromSeed prefixNibbles postfixNibbles).
Local Abbreviation pc_ok' :=
  (pc_ok ScalarBaseMult Ed25519PublicFromSeed prefixNibbles postfixNibbles).

Lemma invariant_initial : invariant' (initial workers).
Proof.
  constructor; simpl.
  - apply length_replicate.
  - split; [lia|]. split; [done|].
    intros j pc Hj. apply lookup_replicate in Hj as [-> Hj]. split; [lia|done].
  - assert (forall n, total active (replicate n WIdle) = 0) as ->; [|done].
    induction n; simpl; lia.
  - done.
  - done.
  - lia.
  - done.
  - done.
  - assert (forall n, total counted (replicate n WIdle) = 0) as ->; [|done].
    induction n; simpl; lia.
  - lia.
  - apply Forall_replicate. done.
  - constructor.
Qed.

(** What one worker step does, field by field. *)
Lemma worker_step_shape pc draw sh pc' sh' :
  worker_step' pc draw sh = Some (pc', sh') ->
  active pc = 1 /\ pc' <> WIdle
  /\ found sh' = found sh
  /\ wg sh' - active pc' = wg sh - 1
  /\ totalAttempts sh' = (match pc with
                          | WCount _ => wrap64 (totalAttempts sh + 1)
                          | _ => totalAttempts sh
                          end)
  /\ (match pc with WSend _ => True | _ => resultChan sh' = resultChan sh end).
Proof.
  destruct pc; simpl; try done.
  - destruct (found sh =? 1); intros [= <- <-]; simpl; repeat split; (done || lia).
  - destruct draw; intros [= <- <-]; simpl; repeat split; (done || lia).
  - intros [= <- <-]; simpl; repeat split; (done || lia).
  - destruct (matchesPattern _ _ _) as [[|]|]; try done;
      intros [= <- <-]; simpl; repeat split; (done || lia).
  - intros [= <- <-]. unfold trySend.
    destruct (length (resultChan sh) <? 1)%nat; simpl; repeat split; (done || lia).
  - intros [= <- <-]; simpl; repeat split; (done || lia).
Qed.

Lemma worker_step_preserves s i draw pc pc' sh' :
  invariant' s -> valid_draw draw ->
  pool s !! i = Some pc ->
  worker_step' pc draw (shared s) = Some (pc', sh') ->
  invariant' (mkSystem sh' (<[i := pc']> (pool s)) (coord s)
                       (record_worker pc (shared s) (hist s))).
Proof.
  intros [Hlen [Hsp1 [Hsp2 Hsp3]] Hwg Hdone Hfound Hcap Hchan Hrecv Hcount Hnn Hpcs Hsent]
         Hdraw Hi Hstep.
  pose proof (worker_step_shape _ _ _ _ _ Hstep)
    as (Hact & Hnidle & Hf & Hw & Hta & Hch).
  assert (Hpc : pc_ok' pc) by (eapply Forall_lookup_1; eauto).
  constructor; cbn [shared pool coord hist].
  - by rewrite length_insert.
  - split; [done|]. split; [done|].
    intros j q Hj. destruct (decide (j = i)) as [-> | Hne].
    + rewrite list_lookup_insert_eq in Hj by (eapply lookup_lt_Some; eauto).
      injection Hj as <-. split; [done|]. intros Hle.
      apply (Hsp3 i pc Hi) in Hle. subst pc. done.
    + rewrite list_lookup_insert_ne in Hj by done. by apply Hsp3.
  - rewrite (total_insert _ _ _ _ _ Hi). lia.
  - destruct (coord s); try done.
    exfalso. assert (total active (pool s) = 0) as Hz by lia.
    apply total_active_zero in Hz.
    pose proof (Forall_lookup_1 _ _ _ _ Hz Hi). simpl in *. lia.
  - by rewrite Hf.
  - destruct pc; try (rewrite Hch; done).
    simpl in Hstep. injection Hstep as <- <-. unfold trySend.
    destruct (Nat.ltb_spec (length (resultChan (shared s))) 1); simpl; [|done].
    rewrite length_app. simpl. lia.
  - destruct pc; try (rewrite Hch; done).
    simpl in Hstep. injection Hstep as <- <-. unfold trySend. simpl.
    destruct (Nat.ltb_spec (length (resultChan (shared s))) 1); simpl; [|done].
    by rewrite Hchan, app_assoc.
  - destruct pc; try done. simpl.
    by destruct (length (resultChan (shared s)) <? 1)%nat.
  - rewrite Hta, (total_insert _ _ _ _ _ Hi).
    destruct pc; simpl in Hstep |- *; try done;
      try (injection Hstep as <- <-; simpl; rewrite Hcount; f_equal; lia).
    + destruct (found (shared s) =? 1); injection Hstep as <- <-; simpl;
        rewrite Hcount; f_equal; lia.
    + destruct draw; injection Hstep as <- <-; simpl; rewrite Hcount; f_equal; lia.
    + injection Hstep as <- <-. simpl. rewrite Hcount, wrap64_succ. f_equal. lia.
    + destruct (matchesPattern _ _ _) as [[|]|]; try done;
        injection Hstep as <- <-; simpl; rewrite Hcount; f_equal; lia.
    + destruct (length (resultChan (shared s)) <? 1)%nat;
        injection Hstep as <- <-; simpl; rewrite Hcount; f_equal; lia.
  - destruct pc; simpl; try done; try lia.
    by destruct (length (resultChan (shared s)) <? 1)%nat.
  - apply Forall_insert; [done|].
    destruct pc; simpl in Hstep; try done.
    + destruct (found (shared s) =? 1); by injection Hstep as <- <-.
    + destruct draw as [buf|]; injection Hstep as <- <-; [|done].
      simpl. exists buf. done.
    + by injection Hstep as <- <-.
    + destruct (matchesPattern _ _ _) as [[|]|] eqn:Hm; try done;
        injection Hstep as <- <-; [|done].
      simpl. split; done.
    + by injection Hstep as <- <-.
    + by injection Hstep as <- <-.
  - destruct pc; simpl; try done.
    destruct (length (resultChan (shared s)) <? 1)%nat; simpl; [|done].
    apply Forall_app. split; [done|]. by constructor.
Qed.

Lemma main_step_preserves s s' :
  invariant' s -> main_step workers s = Some s' -> invariant' s'.
Proof.
  intros [Hlen [Hsp1 [Hsp2 Hsp3]] Hwg Hdone Hfound Hcap Hchan Hrecv Hcount Hnn Hpcs Hsent].
  unfold main_step. destruct (coord s) as [i|i| | id | id | id] eqn:Hc;
    simpl in *.
  - destruct (Nat.ltb_spec i workers); intros [= <-];
      constructor; simpl; try done; try lia.
    + split; [lia|]. split; [by intros ? [= <-]|done].
    + split; [lia|]. split; [done|].
      intros j pc Hj. rewrite (Hsp3 j pc Hj).
      pose proof (lookup_lt_Some _ _ _ Hj). lia.
  - intros [= <-]. specialize (Hsp2 i eq_refl).
    destruct (lookup_lt_is_Some_2 (pool s) i ltac:(lia)) as [pc Hpc].
    assert (pc = WIdle) as -> by (apply (Hsp3 i pc Hpc); lia).
    constructor; simpl; try done.
    + by rewrite length_insert.
    + split; [lia|]. split; [done|].
      intros j q Hj. destruct (decide (j = i)) as [-> | Hne].
      * rewrite list_lookup_insert_eq in Hj by lia. injection Hj as <-.
        split; [done|lia].
      * rewrite list_lookup_insert_ne in Hj by done.
        rewrite (Hsp3 j q Hj). lia.
    + rewrite (total_insert _ _ _ _ _ Hpc). simpl. lia.
    + rewrite (total_insert _ _ _ _ _ Hpc). simpl. rewrite Hcount. f_equal. lia.
    + apply Forall_insert; done.
  - destruct (resultChan (shared s)) as [|id rest] eqn:Hch; [done|].
    intros [= <-]. constructor; simpl; try done.
    + simpl in Hcap. lia.
    + by rewrite Hchan, <- app_assoc.
    + by rewrite Hrecv.
  - intros [= <-]. constructor; simpl; try done.
  - destruct (Z.eqb_spec (wg (shared s)) 0); [|done].
    intros [= <-]. constructor; simpl; try done.
  - done.
Qed.

Lemma step_preserves s s' : invariant' s -> step' s s' -> invariant' s'.
Proof.
  intros Hinv (a & Hvalid & Hexec). destruct a as [i draw|]; simpl in Hexec.
  - destruct (pool s !! i) as [pc|] eqn:Hi; [|done]. simpl in Hexec.
    destruct (worker_step' pc draw (shared s)) as [[pc' sh']|] eqn:Hstep; [|done].
    simpl in Hexec. injection Hexec as <-.
    by eapply worker_step_preserves.
  - by eapply main_step_preserves.
Qed.

Lemma reachable_invariant s : reachable' s -> invariant' s.
Proof.
  revert s. apply rtc_ind_r.
  - apply invariant_initial.
  - intros s s' _ Hstep Hinv. by eapply step_preserves.
Qed.

Lemma run_reachable sched s0 s :
  reachable' s0 -> Forall valid_action sched -> run' sched s0 = Some s ->
  reachable' s.
Proof.
  revert s0. induction sched as [|a sched IH]; intros s0 Hs0 Hvalid Hrun.
  - simpl in Hrun. by injection Hrun as <-.
  - simpl in Hrun. destruct (exec' a s0) as [s1|] eqn:Hexec; [|done].
    simpl in Hrun. apply Forall_cons in Hvalid as [Ha Hvalid].
    apply (IH s1); [|done|done].
    eapply rtc_r; [exact Hs0|]. exists a. done.
Qed.

(** The identity a worker builds re-derives from its own public keys. *)
Lemma newIdentity_round_trip randBuf :
  let id := newIdentity' randBuf in
  wf_identity id
  /\ deriveHashes (X25519Public id) (Ed25519Public id) = (Hash id, Address id)
  /\ Hash id = Spec.fingerprint (X25519Public id) (Ed25519Public id)
  /\ Address id = Spec.address (Hash id).
Proof.
  unfold newIdentity, generateEd25519Public.
  set (priv := clampX25519 _). set (seed := Bytes.copy_into _ 0 32 (Bytes.slice randBuf 32 64)).
  set (xpub := Bytes.copy_into _ 0 32 (ScalarBaseMult priv)).
  set (epub := Bytes.copy_into _ 0 32 (Ed25519PublicFromSeed seed)).
  assert (length xpub = 32%nat) as Hx
    by (unfold xpub; rewrite length_copy_into; rewrite ?length_zeros; lia).
  assert (length epub = 32%nat) as He
    by (unfold epub; rewrite length_copy_into; rewrite ?length_zeros; lia).
  rewrite (deriveHashes_chain xpub epub Hx He). cbn zeta. simpl.
  split; [|split; [by apply deriveHashes_chain|done]].
  unfold wf_identity. simpl.
  split; [unfold priv; rewrite length_clamp, length_copy_into;
          rewrite ?length_zeros; lia|].
  split; [done|].
  split; [unfold seed; rewrite length_copy_into; rewrite ?length_zeros; lia|].
  split; [done|].
  split; [exact (length_fingerprint xpub epub)
         | exact (length_address (Spec.fingerprint xpub epub))].
Qed.

Lemma derived_round_trip id :
  derived' id ->
  wf_identity id
  /\ deriveHashes (X25519Public id) (Ed25519Public id) = (Hash id, Address id)
  /\ Hash id = Spec.fingerprint (X25519Public id) (Ed25519Public id)
  /\ Address id = Spec.address (Hash id).
Proof. intros (randBuf & _ & ->). apply newIdentity_round_trip. Qed.

Lemma held_discovered s id :
  reachable' s -> In id (holds (coord s)) \/ In id (resultChan (shared s)) ->
  discovered' id.
Proof.
  intros Hr Hin. apply reachable_invariant in Hr.
  destruct Hr as [_ _ _ _ _ _ Hchan Hrecv _ _ _ Hsent].
  eapply (proj1 (Forall_forall _ _) Hsent).
  rewrite Hchan, Hrecv. apply list_elem_of_In, in_app_iff. tauto.
Qed.

(** C8. Address derivation is a function of the two public keys, and
    it round-trips: for every identity a worker builds, and so for every
    identity the coordinator has received, re-running the derivation on
    the stored [X25519Public] and [Ed25519Public] fields gives back the
    stored [Hash] and [Address]; two identities with the same public
    keys have the same [Hash] and [Address]. *)
Theorem derivation_round_trip :
  (forall randBuf,
     let id := newIdentity' randBuf in
     deriveHashes (X25519Public id) (Ed25519Public id) = (Hash id, Address id)
     /\ Hash id = take 16 (SHA256.Sum256 (X25519Public id ++ Ed25519Public id))
     /\ Address id = take 16 (SHA256.Sum256 (Spec.name_hash ++ Hash id)))
  /\ (forall s id,
        reachable' s -> In id (holds (coord s)) ->
        deriveHashes (X25519Public id) (Ed25519Public id) = (Hash id, Address id))
  /\ (forall id1 id2,
        derived' id1 -> derived' id2 ->
        X25519Public id1 = X25519Public id2 ->
        Ed25519Public id1 = Ed25519Public id2 ->
        Hash id1 = Hash id2 /\ Address id1 = Address id2).
Proof.
  split; [|split].
  - intros randBuf id.
    destruct (newIdentity_round_trip randBuf) as (_ & H1 & H2 & H3).
    split; [exact H1|]. split; [exact H2 | exact H3].
  - intros s id Hr Hin.
    destruct (held_discovered s id Hr (or_introl Hin)) as [Hd _].
    by destruct (derived_round_trip id Hd) as (_ & H1 & _).
  - intros id1 id2 H1 H2 Hx He.
    destruct (derived_round_trip id1 H1) as (_ & _ & Hh1 & Ha1).
    destruct (derived_round_trip id2 H2) as (_ & _ & Hh2 & Ha2).
    assert (Hash id1 = Hash id2) as Hh by (rewrite Hh1, Hh2, Hx, He; done).
    split; [done|]. by rewrite Ha1, Ha2, Hh.
Qed.

(** *** Random-source failure *)

Local Abbreviation worker_step_on' :=
  (worker_step_on ScalarBaseMult Ed25519PublicFromSeed prefixNibbles postfixNibbles).
Local Abbreviation worker_run_on' :=
  (worker_run_on ScalarBaseMult Ed25519PublicFromSeed prefixNibbles postfixNibbles).

Lemma worker_run_failing n k sh :
  found sh <> 1 ->
  worker_run' (2 * n) (fun _ => RandErr) k WCheck sh = (WCheck, sh).
Proof.
  intros Hf. revert k. induction n as [|n IH]; intros k; [done|].
  replace (2 * S n)%nat with (S (S (2 * n))) by lia.
  cbn [worker_run worker_step].
  destruct (Z.eqb_spec (found sh) 1); [done|].
  apply IH.
Qed.

(** Where [rand.Read] hands a result back at every call, the worker over
    the source is the worker over these results. *)
Lemma worker_run_on_draws c sources draws fuel n pc sh :
  (forall m, rand_Read c (sources m) = Some (draws m)) ->
  worker_run_on' c fuel sources n pc sh
  = let '(pc', sh') := worker_run' fuel draws n pc sh in At pc' sh'.
Proof.
  intros Hd. revert n pc sh.
  induction fuel as [|fuel IH]; intros n pc sh; [done|].
  cbn [worker_run_on worker_run].
  assert (worker_step_on' c pc (sources n) sh
          = match worker_step' pc (draws n) sh with
            | Some (pc', sh') => Some (At pc' sh')
            | None => None
            end) as ->.
  { destruct pc; try done.
    unfold worker_step_on. by rewrite Hd. }
  destruct (worker_step' pc (draws n) sh) as [[pc' sh']|]; [|done].
  apply IH.
Qed.

(** Under the contract of Go 1.24 the run of a worker ends at its first
    draw from a failing source. *)
Lemma worker_run_aborted sources n k sh :
  found sh <> 1 -> sources k = Unavailable ->
  worker_run_on' ReadAborts (2 + n) sources k WCheck sh = Aborted.
Proof.
  intros Hf Hk. cbn [Nat.add worker_run_on worker_step_on worker_step].
  destruct (Z.eqb_spec (found sh) 1); [done|].
  by rewrite Hk.
Qed.

(** C3 (as the code has it). When the random source fails, the worker
    does not go on with that draw, under either contract of
    [rand.Read]: no identity is derived, the attempt counter is not
    incremented and nothing is published.  What follows depends on the
    contract.  Where the failure aborts the process (Go 1.24 and later)
    it is fatal: [rand.Read] never hands an error to the worker, so the
    [continue] of line 184 is not reached, and the run of the worker
    ends at the first failing draw whatever the source would do later.
    Where [rand.Read] returns the error (Go 1.23 and earlier) the
    worker takes the [continue]: it is back at the top of its loop with
    the shared state and the history untouched, and it retries for as
    long as the source keeps failing and the stop flag is unset.  Once
    the stop flag is set the worker returns without a draw, under either
    contract. *)
Theorem rand_failure_fatal_or_retried (sh : Shared) :
  (forall c, worker_step_on' c WRead Unavailable sh = Some Aborted
             \/ worker_step_on' c WRead Unavailable sh = Some (At WCheck sh))
  /\ ((forall src, rand_Read ReadAborts src <> Some RandErr)
      /\ worker_step_on' ReadAborts WRead Unavailable sh = Some Aborted
      /\ (found sh <> 1 ->
          forall sources n k, sources k = Unavailable ->
            worker_run_on' ReadAborts (2 + n) sources k WCheck sh = Aborted))
  /\ (rand_Read ReadReturnsError Unavailable = Some RandErr
      /\ worker_step_on' ReadReturnsError WRead Unavailable sh = Some (At WCheck sh)
      /\ (forall s i, pool s !! i = Some WRead ->
            exec' (ActWorker i RandErr) s
              = Some (mkSystem (shared s) (<[i := WCheck]> (pool s)) (coord s) (hist s)))
      /\ (found sh <> 1 ->
          forall n k,
            worker_run_on' ReadReturnsError (2 * n) (fun _ => Unavailable) k WCheck sh
            = At WCheck sh))
  /\ (found sh = 1 ->
      forall c sources n k,
        worker_run_on' c (2 + n) sources k WCheck sh = At WExit (set_wg (wg sh - 1) sh)).
Proof.
  split; [intros []; [by right|by left]|].
  split.
  { split; [by intros []|]. split; [done|].
    intros Hf sources n k Hk. by apply worker_run_aborted. }
  split.
  { split; [done|]. split; [done|]. split.
    - intros s i Hi. simpl. rewrite Hi. simpl. by destruct (hist s).
    - intros Hf n k.
      rewrite (worker_run_on_draws ReadReturnsError _ (fun _ => RandErr)) by done.
      by rewrite worker_run_failing. }
  intros Hf c sources n k.
  cbn [Nat.add worker_run_on worker_step_on worker_step]. rewrite Hf. simpl.
  by destruct n.
Qed.

(** *** The result hand-off *)

(** C5 (as the code has it). In every reachable state the channel holds
    at most one identity and [main] has received at most one; a worker
    at its [select] can always step (the publish never blocks); if the
    buffer is occupied the publish leaves it unchanged and is dropped,
    if the buffer is empty - also when [main] has already emptied it -
    the publish is stored; and once [main] is past [wg.Wait] it holds
    exactly one identity, the first one sent, and every worker has
    terminated. *)
Theorem single_result_handoff (s : System) :
  reachable' s ->
  (length (resultChan (shared s)) <= 1)%nat
  /\ (length (received (hist s)) <= 1)%nat
  /\ sent (hist s) = received (hist s) ++ resultChan (shared s)
  /\ (forall i id, pool s !! i = Some (WSend id) ->
        exists s', exec' (ActWorker i RandErr) s = Some s'
          /\ pool s' !! i = Some WDefer
          /\ coord s' = coord s
          /\ received (hist s') = received (hist s)
          /\ match resultChan (shared s) with
             | [] => resultChan (shared s') = [id]
                     /\ sent (hist s') = sent (hist s) ++ [id]
                     /\ dropped (hist s') = dropped (hist s)
             | _ :: _ => resultChan (shared s') = resultChan (shared s)
                     /\ sent (hist s') = sent (hist s)
                     /\ dropped (hist s') = dropped (hist s) ++ [id]
             end)
  /\ (forall id, coord s = MReturned id ->
        received (hist s) = [id]
        /\ head (sent (hist s)) = Some id
        /\ length (pool s) = workers
        /\ Forall (fun pc => pc = WExit) (pool s)
        /\ found (shared s) = 1
        /\ discovered' id).
Proof.
  intros Hr. pose proof (reachable_invariant s Hr) as Hinv.
  destruct Hinv as [Hlen [Hsp1 [Hsp2 Hsp3]] Hwg Hdone Hfound Hcap Hchan Hrecv
                    Hcount Hnn Hpcs Hsent].
  split; [done|].
  split; [rewrite Hrecv; destruct (coord s); simpl; lia|].
  split; [done|].
  split.
  - intros i id Hi. simpl. rewrite Hi. simpl. eexists. split; [done|]. simpl.
    split; [apply list_lookup_insert_eq; eapply lookup_lt_Some; eauto|].
    split; [done|].
    unfold trySend.
    destruct (resultChan (shared s)) as [|v rest] eqn:Hch; simpl.
    + done.
    + done.
  - intros id Hc. rewrite Hc in *. simpl in *.
    split; [done|].
    split; [by rewrite Hchan, Hrecv|].
    split; [done|].
    split.
    + assert (total active (pool s) = 0) as Hz by lia.
      apply total_active_zero in Hz.
      apply Forall_lookup. intros j pc Hj.
      pose proof (Forall_lookup_1 _ _ _ _ Hz Hj) as Ha.
      destruct pc; simpl in Ha; try lia; [|done].
      pose proof (lookup_lt_Some _ _ _ Hj).
      pose proof (proj1 (Hsp3 j WIdle Hj) eq_refl). lia.
    + split; [done|].
      apply (held_discovered s id Hr). left. rewrite Hc. simpl. auto.
Qed.

(** *** The attempt counter *)

Lemma wrap64_step_differs t : 0 <= t < 2 ^ 64 -> wrap64 (t + 1) <> t.
Proof.
  intros Ht. unfold wrap64.
  destruct (decide (t = 2 ^ 64 - 1)) as [-> | Hne].
  - replace (2 ^ 64 - 1 + 1) with (2 ^ 64) by lia. rewrite Z.mod_same by lia. lia.
  - rewrite Z.mod_small by lia. lia.
Qed.

Lemma exec_counter s s' a :
  invariant' s -> exec' a s = Some s' ->
  totalAttempts (shared s') =
    match a with
    | ActWorker i _ =>
        match pool s !! i with
        | Some (WCount _) => wrap64 (totalAttempts (shared s) + 1)
        | _ => totalAttempts (shared s)
        end
    | ActMain => totalAttempts (shared s)
    end.
Proof.
  intros Hinv. destruct a as [i draw|]; simpl.
  - destruct (pool s !! i) as [pc|] eqn:Hi; [|done]. simpl.
    destruct (worker_step' pc draw (shared s)) as [[pc' sh']|] eqn:Hstep; [|done].
    simpl. intros [= <-]. simpl.
    by destruct (worker_step_shape _ _ _ _ _ Hstep) as (_ & _ & _ & _ & -> & _).
  - unfold main_step. destruct (coord s); try done.
    + destruct (_ <? _)%nat; by intros [= <-].
    + by intros [= <-].
    + destruct (resultChan (shared s)); [done|]. by intros [= <-].
    + by intros [= <-].
    + destruct (_ =? _); [|done]. by intros [= <-].
Qed.

Lemma exec_worker_eq s i draw pc pc' sh' :
  pool s !! i = Some pc ->
  worker_step' pc draw (shared s) = Some (pc', sh') ->
  exec' (ActWorker i draw) s
  = Some (mkSystem sh' (<[i := pc']> (pool s)) (coord s)
            (record_worker pc (shared s) (hist s))).
Proof. intros Hi Hstep. unfold exec. rewrite Hi. simpl. by rewrite Hstep. Qed.

(** An iteration without a match, from the top of the loop back to the
    top of the loop. *)
Lemma miss_iteration_reachable sh p c h i randBuf :
  reachable' (mkSystem sh p c h) ->
  p !! i = Some WCheck -> found sh <> 1 ->
  valid_draw (RandOk randBuf) ->
  matchesPattern prefixNibbles postfixNibbles (Address (newIdentity' randBuf))
    = Some false ->
  reachable' (mkSystem (addAttempt sh) p c
                (mkHistory (sent h) (dropped h) (received h) (completed h + 1))).
Proof.
  intros Hr Hi Hf Hdraw Hmiss.
  assert (i < length p)%nat as Hlt by (eapply lookup_lt_Some; eauto).
  set (id := newIdentity' randBuf) in *.
  assert (reachable' (mkSystem sh (<[i := WRead]> p) c h)) as H1.
  { eapply rtc_r; [exact Hr|]. exists (ActWorker i RandErr). split; [exact I|].
    rewrite (exec_worker_eq _ i RandErr WCheck WRead sh);
      [reflexivity | exact Hi
       | cbn [worker_step shared]; by destruct (Z.eqb_spec (found sh) 1)]. }
  assert (reachable' (mkSystem sh (<[i := WCount id]> p) c h)) as H2.
  { eapply rtc_r; [exact H1|]. exists (ActWorker i (RandOk randBuf)).
    split; [exact Hdraw|].
    rewrite (exec_worker_eq _ i (RandOk randBuf) WRead (WCount id) sh);
      [cbn [pool shared coord hist record_worker];
       by rewrite list_insert_insert_eq
      | by apply list_lookup_insert_eq | reflexivity]. }
  assert (reachable' (mkSystem (addAttempt sh) (<[i := WMatch id]> p) c h)) as H3.
  { eapply rtc_r; [exact H2|]. exists (ActWorker i RandErr). split; [exact I|].
    rewrite (exec_worker_eq _ i RandErr (WCount id) (WMatch id) (addAttempt sh));
      [cbn [pool shared coord hist record_worker];
       by rewrite list_insert_insert_eq
      | by apply list_lookup_insert_eq | reflexivity]. }
  eapply rtc_r; [exact H3|]. exists (ActWorker i RandErr). split; [exact I|].
  rewrite (exec_worker_eq _ i RandErr (WMatch id) WCheck (addAttempt sh));
    [cbn [pool shared coord hist record_worker];
     by rewrite list_insert_insert_eq, list_insert_id by done
    | by apply list_lookup_insert_eq
    | cbn [worker_step]; by rewrite Hmiss].
Qed.

(** One full iteration of a worker running alone. *)
Lemma worker_run_iteration sh randBuf draws k :
  found sh <> 1 -> draws k = RandOk randBuf ->
  worker_run' 4 draws k WCheck sh =
    match matchesPattern prefixNibbles postfixNibbles
            (Address (newIdentity' randBuf)) with
    | Some true => (WSend (newIdentity' randBuf), addAttempt sh)
    | Some false => (WCheck, addAttempt sh)
    | None => (WMatch (newIdentity' randBuf), addAttempt sh)
    end.
Proof.
  intros Hf Hdraw.
  change (worker_run' 4 draws k WCheck sh) with
    (match worker_step' WCheck (draws k) sh with
     | Some (pc', sh') =>
         worker_run' 3 draws k pc' sh'
     | None => (WCheck, sh)
     end).
  unfold worker_step at 1.
  destruct (Z.eqb_spec (found sh) 1); [done|].
  change (worker_run' 3 draws k WRead sh) with
    (match worker_step' WRead (draws k) sh with
     | Some (pc', sh') => worker_run' 2 draws (S k) pc' sh'
     | None => (WRead, sh)
     end).
  rewrite Hdraw. unfold worker_step at 1.
  set (id := newIdentity' randBuf).
  change (worker_run' 2 draws (S k) (WCount id) sh) with
    (match worker_step' (WMatch id) (draws (S k)) (addAttempt sh) with
     | Some (pc', sh') => (pc', sh')
     | None => (WMatch id, addAttempt sh)
     end).
  unfold worker_step.
  by destruct (matchesPattern prefixNibbles postfixNibbles (Address id)) as [[|]|].
Qed.

(** C7 (as the code has it). Every step leaves the attempt counter
    unchanged or adds one to it modulo 2^64; the only step that changes
    it is the atomic add of a worker, which each iteration that reaches
    the match test performs exactly once, so that the counter always
    equals, modulo 2^64, the number of finished iterations plus the
    iterations counted and not yet finished; and the counter does not
    decrease as long as it is below 2^64 - 1. *)
Theorem attempt_counter_counts (s s' : System) :
  reachable' s -> step' s s' ->
  (totalAttempts (shared s') = totalAttempts (shared s)
   \/ totalAttempts (shared s') = wrap64 (totalAttempts (shared s) + 1))
  /\ (totalAttempts (shared s) < 2 ^ 64 - 1 ->
      totalAttempts (shared s) <= totalAttempts (shared s'))
  /\ totalAttempts (shared s)
       = wrap64 (completed (hist s) + total counted (pool s))
  /\ totalAttempts (shared s')
       = wrap64 (completed (hist s') + total counted (pool s'))
  /\ (forall i draw, exec' (ActWorker i draw) s = Some s' ->
        (totalAttempts (shared s') <> totalAttempts (shared s)
         <-> exists id, pool s !! i = Some (WCount id)))
  /\ (forall sh randBuf draws k,
        found sh <> 1 -> draws k = RandOk randBuf ->
        matchesPattern prefixNibbles postfixNibbles
          (Address (newIdentity' randBuf)) <> None ->
        totalAttempts (worker_run' 4 draws k WCheck sh).2
          = wrap64 (totalAttempts sh + 1)
        /\ ((worker_run' 4 draws k WCheck sh).1 = WCheck
            \/ (worker_run' 4 draws k WCheck sh).1 = WSend (newIdentity' randBuf))).
Proof.
  intros Hr Hstep.
  pose proof (reachable_invariant s Hr) as Hinv.
  pose proof (step_preserves s s' Hinv Hstep) as Hinv'.
  pose proof (inv_count _ _ _ _ _ _ Hinv) as Hc.
  pose proof (inv_count _ _ _ _ _ _ Hinv') as Hc'.
  assert (0 <= totalAttempts (shared s) < 2 ^ 64) as Hrange
    by (rewrite Hc; apply wrap64_range).
  destruct Hstep as (a & Hvalid & Hexec).
  pose proof (exec_counter s s' a Hinv Hexec) as Hcnt.
  assert (Hcases : totalAttempts (shared s') = totalAttempts (shared s)
     \/ totalAttempts (shared s') = wrap64 (totalAttempts (shared s) + 1)).
  { rewrite Hcnt. destruct a as [i draw|]; [|by left].
    destruct (pool s !! i) as [[]|]; auto. }
  split; [done|].
  split.
  { intros Hlt. destruct Hcases as [-> | ->]; [lia|].
    unfold wrap64. rewrite Z.mod_small by lia. lia. }
  split; [done|]. split; [done|].
  split.
  { intros i draw Hexec'.
    pose proof (exec_counter s s' _ Hinv Hexec') as Hcnt'. simpl in Hcnt'.
    rewrite Hcnt'. split.
    - intros Hne. destruct (pool s !! i) as [[]|]; try done. by eexists.
    - intros [id ->]. by apply wrap64_step_differs. }
  intros sh randBuf draws k Hf Hdraw Hm.
  rewrite (worker_run_iteration sh randBuf draws k Hf Hdraw).
  destruct (matchesPattern prefixNibbles postfixNibbles _) as [[|]|];
    try done; simpl; auto.
Qed.

End Search.

(** ** Concrete runs *)

Lemma valid_replicate (k : Z) :
  0 <= k < 256 -> valid_draw (RandOk (replicate 64 k)).
Proof.
  intros Hk. split; [apply length_replicate|].
  apply Forall_replicate. exact Hk.
Qed.

Lemma valid_tick i : valid_action (tick i).
Proof. exact I. Qed.

Lemma two_winners_valid : Forall valid_action two_winners.
Proof.
  unfold two_winners.
  repeat (apply Forall_cons; split;
          [first [exact I | apply valid_replicate; lia]|]).
  constructor.
Qed.

Lemma late_loser_valid : Forall valid_action late_loser.
Proof.
  unfold late_loser.
  repeat (apply Forall_cons; split;
          [first [exact I | apply valid_replicate; lia]|]).
  constructor.
Qed.

Lemma two_winners_runs :
  run sample_ScalarBaseMult sample_Ed25519Public [2] [] 2 two_winners (initial 2)
  = Some two_winners_final.
Proof. vm_compute. reflexivity. Qed.

Lemma late_loser_runs :
  run sample_ScalarBaseMult sample_Ed25519Public [2] [] 2 late_loser (initial 2)
  = Some late_loser_final.
Proof. vm_compute. reflexivity. Qed.

Lemma two_winners_reachable :
  reachable sample_ScalarBaseMult sample_Ed25519Public [2] [] 2 two_winners_final.
Proof.
  eapply run_reachable; [apply rtc_refl | apply two_winners_valid | apply two_winners_runs].
Qed.

Lemma late_loser_reachable :
  reachable sample_ScalarBaseMult sample_Ed25519Public [2] [] 2 late_loser_final.
Proof.
  eapply run_reachable; [apply rtc_refl | apply late_loser_valid | apply late_loser_runs].
Qed.

Lemma before_count_reachable :
  reachable sample_ScalarBaseMult sample_Ed25519Public [2] [] 2 before_count.
Proof.
  eapply (run_reachable _ _ _ _ _
            [ActMain; ActMain; ActMain; ActMain; ActMain;
             tick 1; tick 0; ActWorker 0 (RandOk buf_a); tick 1]);
    [apply rtc_refl | | vm_compute; reflexivity].
  repeat (apply Forall_cons; split;
          [first [exact I | apply valid_replicate; lia]|]).
  constructor.
Qed.

Lemma winners_differ : sample_newIdentity buf_a <> sample_newIdentity buf_b.
Proof. intros H. apply (f_equal Address) in H. vm_compute in H. discriminate. Qed.

Lemma miss_does_not_match :
  matchesPattern [2] [] (Address (sample_newIdentity buf_miss)) = Some false.
Proof. vm_compute. reflexivity. Qed.

Lemma spin_reachable (t : Z) :
  0 <= t ->
  reachable sample_ScalarBaseMult sample_Ed25519Public [2] [] 1 (spin_state t).
Proof.
  revert t. apply natlike_ind.
  - eapply (run_reachable _ _ _ _ _ [ActMain; ActMain; ActMain]);
      [apply rtc_refl | repeat constructor | reflexivity].
  - intros t Ht IH.
    pose proof (miss_iteration_reachable sample_ScalarBaseMult sample_Ed25519Public
                  [2] [] 1 _ _ _ _ 0%nat buf_miss IH eq_refl) as Hnext.
    cbn [found sent dropped received completed] in Hnext.
    specialize (Hnext ltac:(lia) (valid_replicate 2 ltac:(lia)) miss_does_not_match).
    unfold addAttempt, set_totalAttempts in Hnext.
    cbn [totalAttempts found wg resultChan] in Hnext.
    rewrite wrap64_succ in Hnext.
    replace (Z.succ t) with (t + 1) by lia. exact Hnext.
Qed.

Lemma counter_at_max_reachable :
  reachable sample_ScalarBaseMult sample_Ed25519Public [2] [] 1 counter_at_max.
Proof.
  eapply (run_reachable _ _ _ _ _ [tick 0; ActWorker 0 (RandOk buf_miss)]);
    [apply (spin_reachable (2 ^ 64 - 1)); lia | |].
  - repeat (apply Forall_cons; split;
            [first [exact I | apply valid_replicate; lia]|]).
    constructor.
  - reflexivity.
Qed.

(** ** The claims on concrete runs *)

(** C3, counterexample. Under the contract of Go 1.23 and earlier,
    where [rand.Read] returns the error of a failing source, a worker
    whose every draw fails neither stops nor reports anything: after
    1000 steps, 500 failed draws, it is at the top of its loop with the
    shared state as it was. *)
Lemma returned_error_silently_retried :
  rand_Read ReadReturnsError Unavailable = Some RandErr
  /\ worker_step sample_ScalarBaseMult sample_Ed25519Public [2] []
       WRead RandErr (mkShared 0 0 1 []) = Some (WCheck, mkShared 0 0 1 [])
  /\ worker_run_on sample_ScalarBaseMult sample_Ed25519Public [2] []
       ReadReturnsError 1000 (fun _ => Unavailable) 0 WCheck (mkShared 0 0 1 [])
     = At WCheck (mkShared 0 0 1 []).
Proof. repeat split; vm_compute; reflexivity. Qed.

Lemma rand_failure_fatal_or_retried_witness :
  worker_run_on sample_ScalarBaseMult sample_Ed25519Public [2] []
    ReadAborts (2 + 5) (fun _ => Unavailable) 0 WCheck (mkShared 5 0 1 []) = Aborted
  /\ worker_run_on sample_ScalarBaseMult sample_Ed25519Public [2] []
       ReadReturnsError (2 * 7) (fun _ => Unavailable) 0 WCheck (mkShared 5 0 1 [])
     = At WCheck (mkShared 5 0 1 []).
Proof.
  destruct (rand_failure_fatal_or_retried sample_ScalarBaseMult sample_Ed25519Public
              [2] [] 1 (mkShared 5 0 1 [])) as (_ & (_ & _ & Ha) & (_ & _ & _ & Hr) & _).
  split.
  - apply Ha; [simpl; lia|reflexivity].
  - apply Hr. simpl. lia.
Defined.

(** C5, counterexample. With two workers and the schedule
    [two_winners], both publishes are taken by the [select]: the second
    one arrives after [main] has emptied the buffer, so it is stored,
    not dropped, and two distinct identities have been accepted by the
    channel. *)
Lemma second_publish_accepted :
  reachable sample_ScalarBaseMult sample_Ed25519Public [2] [] 2 two_winners_final
  /\ sent (hist two_winners_final)
     = [sample_newIdentity buf_a; sample_newIdentity buf_b]
  /\ sample_newIdentity buf_a <> sample_newIdentity buf_b
  /\ dropped (hist two_winners_final) = []
  /\ resultChan (shared two_winners_final) = [sample_newIdentity buf_b]
  /\ coord two_winners_final = MReturned (sample_newIdentity buf_a).
Proof.
  split; [apply two_winners_reachable|].
  split; [reflexivity|].
  split; [apply winners_differ|].
  repeat split.
Qed.

Lemma single_result_handoff_witness :
  received (hist late_loser_final) = [sample_newIdentity buf_a]
  /\ head (sent (hist late_loser_final)) = Some (sample_newIdentity buf_a)
  /\ length (pool late_loser_final) = 2%nat
  /\ Forall (fun pc => pc = WExit) (pool late_loser_final).
Proof.
  destruct (single_result_handoff sample_ScalarBaseMult sample_Ed25519Public [2] [] 2
              late_loser_final late_loser_reachable)
    as (_ & _ & _ & _ & Hret).
  destruct (Hret (sample_newIdentity buf_a) eq_refl) as (H1 & H2 & H3 & H4 & _).
  exact (conj H1 (conj H2 (conj H3 H4))).
Defined.

(** C7, counterexample. The state [counter_at_max] is reachable with
    one worker, its counter is 2^64 - 1, and the next step of the worker,
    its atomic add, makes the counter 0. *)
Lemma attempt_counter_wraps :
  reachable sample_ScalarBaseMult sample_Ed25519Public [2] [] 1 counter_at_max
  /\ totalAttempts (shared counter_at_max) = 2 ^ 64 - 1
  /\ exists s',
       step sample_ScalarBaseMult sample_Ed25519Public [2] [] 1 counter_at_max s'
       /\ totalAttempts (shared s') = 0
       /\ totalAttempts (shared s') < totalAttempts (shared counter_at_max).
Proof.
  split; [apply counter_at_max_reachable|].
  split; [reflexivity|].
  eexists. split.
  - exists (tick 0). split; [exact I|]. reflexivity.
  - split; reflexivity.
Qed.

Lemma attempt_counter_counts_witness :
  totalAttempts (shared before_count) <= totalAttempts (shared after_count)
  /\ totalAttempts (shared after_count)
     = wrap64 (completed (hist after_count) + total counted (pool after_count)).
Proof.
  assert (Hstep : step sample_ScalarBaseMult sample_Ed25519Public [2] [] 2
                    before_count after_count).
  { exists (tick 0). split; [exact I|]. reflexivity. }
  destruct (attempt_counter_counts sample_ScalarBaseMult sample_Ed25519Public [2] [] 2
              before_count after_count before_count_reachable Hstep)
    as (_ & Hmono & _ & Hcount & _).
  split; [apply Hmono; simpl; lia | exact Hcount].
Defined.

Lemma derivation_round_trip_witness :
  deriveHashes (X25519Public (sample_newIdentity buf_a))
               (Ed25519Public (sample_newIdentity buf_a))
  = (Hash (sample_newIdentity buf_a), Address (sample_newIdentity buf_a)).
Proof.
  apply (proj1 (proj2
    (derivation_round_trip sample_ScalarBaseMult sample_Ed25519Public [2] [] 2))
    two_winners_final (sample_newIdentity buf_a) two_winners_reachable).
  left. reflexivity.
Defined.

(** * Further properties of the code *)

(** ** [isHex] *)

Lemma hexRune_digit c : hexRune c = true <-> hex_digit_byte c.
Proof. unfold hexRune, hex_digit_byte. lia. Qed.

(** [isHex] accepts exactly the strings all of whose bytes are ASCII hex
    digits of either case; such a string is its own sequence of runes,
    and any byte from 128 up, whatever UTF-8 sequence it belongs to,
    makes the string fail. *)
Theorem isHex_exact (s : list Z) :
  (isHex s = true <-> Forall hex_digit_byte s)
  /\ (isHex s = true -> UTF8.range s = s)
  /\ (forall c, In c s -> 128 <= c -> isHex s = false).
Proof.
  assert (Hiff : isHex s = true <-> Forall hex_digit_byte s).
  { split.
    - intros H. apply isHex_bytes in H as [_ H].
      apply Forall_forall. intros c Hc. apply hexRune_digit.
      apply (proj1 (forallb_forall _ _) H). by apply list_elem_of_In.
    - intros H. apply hex_bytes_isHex. apply forallb_forall. intros c Hc.
      apply hexRune_digit. apply (proj1 (Forall_forall _ _) H).
      by apply list_elem_of_In. }
  split; [exact Hiff|]. split.
  - intros H. by apply isHex_bytes in H as [-> _].
  - intros c Hc Hbig. destruct (isHex s); [|done].
    pose proof (proj1 Hiff eq_refl) as Hs.
    pose proof (proj1 (Forall_forall _ _) Hs c (proj2 (list_elem_of_In _ _) Hc)) as Hd.
    unfold hex_digit_byte in Hd. lia.
Qed.

Lemma isHex_exact_witness :
  UTF8.range (Bytes.of_string "Be3f") = Bytes.of_string "Be3f"
  /\ isHex [98; 195; 169] = false.
Proof.
  split.
  - exact (proj1 (proj2 (isHex_exact (Bytes.of_string "Be3f"))) eq_refl).
  - apply (proj2 (proj2 (isHex_exact [98; 195; 169])) 195); [simpl; auto | lia].
Defined.

(** ** [clampX25519] as a scalar *)

Lemma clamp_byte31 b :
  Z.lor (Z.land b 127) 64 = Z.land b 63 + 64 /\ 64 <= Z.lor (Z.land b 127) 64 <= 127.
Proof.
  pose proof (Z.add_lor_land (Z.land b 127) 64) as Hadd.
  pose proof (Z.sub_land_same_l (Z.land b 127) 64) as Hsub.
  assert (Z.land (Z.land b 127) (Z.lnot 64) = Z.land b 63) as Hlow
    by (rewrite <- Z.land_assoc; reflexivity).
  pose proof (land_low b 6 ltac:(lia)) as H6. change (Z.ones 6) with 63 in H6.
  change (2 ^ 6) with 64 in H6. lia.
Qed.

Lemma clamp_byte0 b : Z.land b 248 mod 8 = 0 /\ (0 <= b < 256 -> 0 <= Z.land b 248 < 256).
Proof.
  split.
  - rewrite <- (Z.land_ones _ 3) by lia. rewrite <- Z.land_assoc. apply Z.land_0_r.
  - intros Hb. split; [apply Z.land_nonneg; lia|].
    pose proof (Z.sub_land_same_l b 248).
    assert (0 <= Z.land b (Z.lnot 248)) by (apply Z.land_nonneg; lia). lia.
Qed.

(** Clamping twice is clamping once. *)
Theorem clampX25519_idempotent (k : list Z) :
  clampX25519 (clampX25519 k) = clampX25519 k.
Proof.
  apply list_eq. intros i.
  destruct (decide (i = 0%nat)) as [-> | H0].
  - rewrite !clamp_lookup_0. destruct (k !! 0%nat) as [b|]; [|done]. simpl.
    f_equal. by rewrite <- Z.land_assoc.
  - destruct (decide (i = 31%nat)) as [-> | H31].
    + rewrite !clamp_lookup_31. destruct (k !! 31%nat) as [b|]; [|done]. simpl.
      f_equal. rewrite Z.land_lor_distr_l, <- Z.land_assoc.
      change (Z.land 127 127) with 127. change (Z.land 64 127) with 64.
      by rewrite <- Z.lor_assoc.
    + by rewrite !clamp_lookup_other.
Qed.

Lemma le_int_bounds l : Bytes.all_bytes l -> 0 <= le_int l < 256 ^ Z.of_nat (length l).
Proof.
  induction 1 as [|b l Hb Hl IH]; simpl le_int; [simpl; lia|].
  rewrite length_cons, Nat2Z.inj_succ, Z.pow_succ_r by lia.
  unfold Bytes.is_byte in Hb. lia.
Qed.

Lemma le_int_snoc l x : le_int (l ++ [x]) = le_int l + 256 ^ Z.of_nat (length l) * x.
Proof.
  induction l as [|b l IH]; simpl le_int; [simpl; lia|].
  rewrite IH, length_cons, Nat2Z.inj_succ, Z.pow_succ_r by lia. lia.
Qed.

Lemma clamp_all_bytes k : Bytes.all_bytes k -> Bytes.all_bytes (clampX25519 k).
Proof.
  intros Hk. apply Forall_lookup. intros i x Hx.
  destruct (decide (i = 0%nat)) as [-> | H0].
  - rewrite clamp_lookup_0 in Hx. destruct (k !! 0%nat) as [b|] eqn:Hb; [|done].
    injection Hx as <-. apply (proj2 (clamp_byte0 b)).
    exact (Forall_lookup_1 _ _ _ _ Hk Hb).
  - destruct (decide (i = 31%nat)) as [-> | H31].
    + rewrite clamp_lookup_31 in Hx. destruct (k !! 31%nat) as [b|]; [|done].
      injection Hx as <-. pose proof (clamp_byte31 b). unfold Bytes.is_byte. lia.
    + rewrite clamp_lookup_other in Hx by done. eapply Forall_lookup_1; eauto.
Qed.

Lemma clamp_scalar (k : list Z) :
  length k = 32%nat -> Bytes.all_bytes k ->
  le_int (clampX25519 k) mod 8 = 0
  /\ 2 ^ 254 <= le_int (clampX25519 k) < 2 ^ 255
  /\ Bytes.all_bytes (clampX25519 k).
Proof.
  intros Hlen Hk.
  pose proof (clamp_all_bytes k Hk) as Hk'.
  pose proof (length_clamp k) as Hlen'. rewrite Hlen in Hlen'.
  destruct (clampX25519 k) as [|b0 t] eqn:Hc; [done|].
  assert (Some b0 = (fun b => Z.land b 248) <$> k !! 0%nat) as Hb0
    by (rewrite <- clamp_lookup_0, Hc; done).
  assert (t !! 30%nat = (fun b => Z.lor (Z.land b 127) 64) <$> k !! 31%nat) as Hb31
    by (rewrite <- clamp_lookup_31, Hc; done).
  destruct (lookup_lt_is_Some_2 k 0%nat ltac:(lia)) as [x0 Hx0].
  destruct (lookup_lt_is_Some_2 k 31%nat ltac:(lia)) as [x31 Hx31].
  rewrite Hx0 in Hb0. rewrite Hx31 in Hb31. simpl in Hb0, Hb31.
  injection Hb0 as ->.
  simpl in Hlen'.
  assert (t = take 30 t ++ [Z.lor (Z.land x31 127) 64]) as Ht.
  { rewrite <- (take_drop 30 t) at 1. f_equal.
    apply list_eq. intros j. rewrite lookup_drop.
    destruct j as [|j]; simpl.
    - exact Hb31.
    - apply lookup_ge_None_2. lia. }
  pose proof Hk' as Hall.
  apply Forall_cons in Hk' as [Hb0 Ht'].
  assert (Bytes.all_bytes (take 30 t)) as Htake by (by apply Forall_take).
  pose proof (le_int_bounds _ Htake) as Hlow.
  rewrite length_take in Hlow.
  replace (30 `min` length t)%nat with 30%nat in Hlow by lia.
  pose proof (clamp_byte31 x31) as [_ H31].
  pose proof (clamp_byte0 x0) as [Hm8 _].
  assert (le_int (Z.land x0 248 :: t)
          = Z.land x0 248
            + 256 * (le_int (take 30 t) + 2 ^ 240 * Z.lor (Z.land x31 127) 64)) as ->.
  { simpl le_int. rewrite Ht at 1. rewrite le_int_snoc, length_take.
    replace (30 `min` length t)%nat with 30%nat by lia. reflexivity. }
  unfold Bytes.is_byte in Hb0.
  change (256 ^ Z.of_nat 30) with (2 ^ 240) in *.
  split; [|split; [|exact Hall]].
  - rewrite Z.add_mod, Hm8 by lia.
    replace (256 * (le_int (take 30 t) + 2 ^ 240 * Z.lor (Z.land x31 127) 64))
      with ((32 * (le_int (take 30 t) + 2 ^ 240 * Z.lor (Z.land x31 127) 64)) * 8) by lia.
    by rewrite Z.mod_mul by lia.
  - change (2 ^ 254) with (256 * (2 ^ 240 * 64)).
    change (2 ^ 255) with (256 * (2 ^ 240 * 128)).
    assert (0 < 2 ^ 240) by lia. nia.
Qed.

(** The clamped key of 32 bytes, read as a little-endian integer, is a
    multiple of 8 with bit 254 set and no bit above: it lies in
    [2^254, 2^255).  Its bytes stay bytes. *)
Theorem clampX25519_scalar_range (k : list Z) :
  length k = 32%nat -> Bytes.all_bytes k ->
  le_int (clampX25519 k) mod 8 = 0
  /\ 2 ^ 254 <= le_int (clampX25519 k) < 2 ^ 255
  /\ Bytes.all_bytes (clampX25519 k).
Proof.
  intros Hlen Hk.
  destruct (clamp_scalar k Hlen Hk) as (Hmul & Hrange & _).
  split; [exact Hmul|].
  split; [exact Hrange|].
  by apply clamp_all_bytes.
Qed.

Lemma clampX25519_scalar_range_witness :
  2 ^ 254 <= le_int (clampX25519 (replicate 32 255)) < 2 ^ 255.
Proof.
  refine (proj1 (proj2 (clampX25519_scalar_range (replicate 32 255) eq_refl _))).
  apply Forall_replicate. unfold Bytes.is_byte. lia.
Defined.

(** ** The hex view of nibble matching *)

Lemma nibbles_of_cons b bs : nibbles_of (b :: bs) = b / 16 :: b mod 16 :: nibbles_of bs.
Proof. reflexivity. Qed.

Lemma length_nibbles_of bs : length (nibbles_of bs) = (2 * length bs)%nat.
Proof. induction bs as [|b bs IH]; [done|]. rewrite nibbles_of_cons. simpl. lia. Qed.

Lemma nibble_nibbles_of addr k : Spec.nibble addr k = nibbles_of addr !! k.
Proof.
  revert k. induction addr as [|b bs IH]; intros k.
  - unfold Spec.nibble. by rewrite !lookup_nil.
  - rewrite nibbles_of_cons.
    destruct k as [|[|k]]; [done | done |].
    change ((b / 16 :: b mod 16 :: nibbles_of bs) !! S (S k)) with (nibbles_of bs !! k).
    rewrite <- IH. unfold Spec.nibble.
    replace (S (S k)) with (k + 1 * 2)%nat by lia.
    rewrite Nat.div_add by lia. rewrite Nat.add_1_r. simpl lookup.
    replace (Nat.even (k + 1 * 2)) with (Nat.even k); [done|].
    replace (k + 1 * 2)%nat with (S (S k)) by lia. done.
Qed.

Lemma nibbles_of_range bs :
  Bytes.all_bytes bs -> Forall (fun n => 0 <= n <= 15) (nibbles_of bs).
Proof.
  induction 1 as [|b bs Hb Hbs IH]; [constructor|].
  rewrite nibbles_of_cons. unfold Bytes.is_byte in Hb.
  repeat constructor; try done; Z.to_euclidean_division_equations; lia.
Qed.

Lemma hex_encode_nibbles bs : hex_EncodeToString bs = hexDigit <$> nibbles_of bs.
Proof.
  induction bs as [|b bs IH]; [done|].
  rewrite nibbles_of_cons, !fmap_cons, <- IH.
  unfold hex_EncodeToString. rewrite fmap_cons. simpl mjoin.
  rewrite Z.shiftr_div_pow2, low_nibble by lia. done.
Qed.

Lemma lower_hex_of_digit n : 0 <= n <= 15 -> Spec.lower_hex_or_zero (hexDigit n) = n.
Proof. intros Hn. unfold Spec.lower_hex_or_zero, hexDigit. repeat case_match; lia. Qed.

Lemma digit_of_lower_hex c :
  lower_hex_byte c -> hexDigit (Spec.lower_hex_or_zero c) = c.
Proof.
  unfold lower_hex_byte, Spec.lower_hex_or_zero, hexDigit. intros Hc.
  repeat case_match; lia.
Qed.

Lemma hexDigit_lower n : 0 <= n <= 15 -> lower_hex_byte (hexDigit n).
Proof. unfold lower_hex_byte, hexDigit. intros Hn. case_match; lia. Qed.

Lemma nibbles_back (ns : list Z) :
  Forall (fun n => 0 <= n <= 15) ns ->
  Spec.lower_hex_or_zero <$> (hexDigit <$> ns) = ns.
Proof.
  induction 1 as [|n ns Hn Hns IH]; [done|].
  rewrite !fmap_cons, IH, lower_hex_of_digit by done. done.
Qed.

Lemma digits_back (p : list Z) :
  Forall lower_hex_byte p ->
  hexDigit <$> (Spec.lower_hex_or_zero <$> p) = p.
Proof.
  induction 1 as [|c p Hc Hp IH]; [done|].
  rewrite !fmap_cons, IH, digit_of_lower_hex by done. done.
Qed.

Lemma hexToNibbles_of_encoding bs :
  Bytes.all_bytes bs -> hexToNibbles (hex_EncodeToString bs) = nibbles_of bs.
Proof.
  intros Hb. rewrite hexToNibbles_fmap, hex_encode_nibbles.
  by apply nibbles_back, nibbles_of_range.
Qed.

(** Encoding bytes to hex and parsing the digits back gives the nibbles
    of the bytes, two per byte, from which each byte is recovered; the
    encoding has only digits and lower-case letters, so it passes
    [isHex]. *)
Theorem hex_encode_parse_round_trip (bs : list Z) :
  Bytes.all_bytes bs ->
  hexToNibbles (hex_EncodeToString bs) = nibbles_of bs
  /\ length (hex_EncodeToString bs) = (2 * length bs)%nat
  /\ isHex (hex_EncodeToString bs) = true
  /\ (forall i b, bs !! i = Some b ->
        exists h l,
          hexToNibbles (hex_EncodeToString bs) !! (2 * i)%nat = Some h
          /\ hexToNibbles (hex_EncodeToString bs) !! (2 * i + 1)%nat = Some l
          /\ b = 16 * h + l).
Proof.
  intros Hb.
  pose proof (hexToNibbles_of_encoding bs Hb) as Hrt.
  split; [exact Hrt|].
  split; [by rewrite hex_encode_nibbles, length_fmap, length_nibbles_of|].
  split.
  { apply hex_bytes_isHex. apply forallb_forall. intros c Hc.
    rewrite hex_encode_nibbles in Hc.
    apply list_elem_of_In, list_elem_of_fmap in Hc as (n & -> & Hn).
    pose proof (proj1 (Forall_forall _ _) (nibbles_of_range bs Hb) n Hn) as Hr.
    apply hexRune_digit. pose proof (hexDigit_lower n Hr) as Hl.
    unfold lower_hex_byte in Hl. unfold hex_digit_byte. lia. }
  intros i b Hi. rewrite Hrt, <- !nibble_nibbles_of. unfold Spec.nibble.
  replace (2 * i)%nat with (i * 2)%nat by lia.
  rewrite Nat.div_add_l, Nat.div_mul by lia.
  change (1 / 2)%nat with 0%nat. rewrite Nat.add_0_r, Hi. simpl.
  exists (b / 16), (b mod 16).
  replace (Nat.even (i * 2)) with true
    by (symmetry; apply Nat.even_spec; exists i; lia).
  replace (Nat.even (i * 2 + 1)) with false.
  - repeat split. Z.to_euclidean_division_equations; lia.
  - symmetry. rewrite <- Nat.negb_odd. apply negb_false_iff.
    apply Nat.odd_spec. exists i. lia.
Qed.

Lemma hex_encode_parse_round_trip_witness :
  hexToNibbles (hex_EncodeToString [202; 254; 9]) = nibbles_of [202; 254; 9]
  /\ isHex (hex_EncodeToString [202; 254; 9]) = true.
Proof.
  assert (Bytes.all_bytes [202; 254; 9]) as Hb
    by (unfold Bytes.all_bytes, Bytes.is_byte; repeat constructor; lia).
  destruct (hex_encode_parse_round_trip [202; 254; 9] Hb) as (H1 & _ & H3 & _).
  exact (conj H1 H3).
Defined.

Lemma prefix_lookup (pre N : list Z) :
  (length pre <= length N)%nat ->
  pre `prefix_of` N <-> forall i, (i < length pre)%nat -> N !! i = pre !! i.
Proof.
  intros Hlen. split.
  - intros [k ->] i Hi. by rewrite lookup_app_l.
  - intros H. exists (drop (length pre) N).
    rewrite <- (take_drop (length pre) N) at 1. f_equal.
    apply list_eq. intros i. destruct (decide (i < length pre)%nat).
    + rewrite lookup_take_lt by done. by apply H.
    + rewrite lookup_take_ge by lia. symmetry. apply lookup_ge_None_2. lia.
Qed.

Lemma suffix_lookup (post N : list Z) :
  (length post <= length N)%nat ->
  post `suffix_of` N <->
  forall j, (j < length post)%nat -> N !! (length N - length post + j)%nat = post !! j.
Proof.
  intros Hlen. split.
  - intros [k ->] j Hj. rewrite length_app.
    replace (length k + length post - length post + j)%nat with (length k + j)%nat by lia.
    by rewrite lookup_app_r, Nat.add_comm, Nat.add_sub by lia.
  - intros H. exists (take (length N - length post) N).
    rewrite <- (take_drop (length N - length post) N) at 1. f_equal.
    apply list_eq. intros j. rewrite lookup_drop.
    destruct (decide (j < length post)%nat).
    + by apply H.
    + rewrite (lookup_ge_None_2 post) by lia. apply lookup_ge_None_2. lia.
Qed.

Lemma prefix_fmap_digits (p N : list Z) :
  Forall lower_hex_byte p -> Forall (fun n => 0 <= n <= 15) N ->
  p `prefix_of` (hexDigit <$> N) <-> (Spec.lower_hex_or_zero <$> p) `prefix_of` N.
Proof.
  intros Hp HN. split.
  - intros [k Hk]. exists (Spec.lower_hex_or_zero <$> k).
    rewrite <- fmap_app, <- Hk. by rewrite nibbles_back.
  - intros [k ->]. exists (hexDigit <$> k). by rewrite fmap_app, digits_back.
Qed.

Lemma suffix_fmap_digits (q N : list Z) :
  Forall lower_hex_byte q -> Forall (fun n => 0 <= n <= 15) N ->
  q `suffix_of` (hexDigit <$> N) <-> (Spec.lower_hex_or_zero <$> q) `suffix_of` N.
Proof.
  intros Hq HN. split.
  - intros [k Hk]. exists (Spec.lower_hex_or_zero <$> k).
    rewrite <- fmap_app, <- Hk. by rewrite nibbles_back.
  - intros [k ->]. exists (hexDigit <$> k). by rewrite fmap_app, digits_back.
Qed.

Lemma matchesPattern_hex (addr p q : list Z) :
  length addr = 16%nat -> Bytes.all_bytes addr ->
  Forall lower_hex_byte p -> Forall lower_hex_byte q ->
  (length p <= 32)%nat -> (length q <= 32)%nat ->
  matchesPattern (hexToNibbles p) (hexToNibbles q) addr = Some true
  <-> p `prefix_of` hex_EncodeToString addr /\ q `suffix_of` hex_EncodeToString addr.
Proof.
  intros Hlen Hbytes Hp Hq Hlp Hlq.
  assert (length (hexToNibbles p) = length p) as Hnp
    by (rewrite hexToNibbles_fmap; apply length_fmap).
  assert (length (hexToNibbles q) = length q) as Hnq
    by (rewrite hexToNibbles_fmap; apply length_fmap).
  destruct (matchesPattern_spec addr Hlen Hbytes (hexToNibbles p) (hexToNibbles q)
              ltac:(lia) ltac:(lia)) as (b & Hrun & Hiff).
  pose proof (nibbles_of_range addr Hbytes) as HN.
  pose proof (length_nibbles_of addr) as HlN. rewrite Hlen in HlN.
  rewrite hex_encode_nibbles, prefix_fmap_digits, suffix_fmap_digits by done.
  rewrite <- !hexToNibbles_fmap.
  rewrite prefix_lookup, suffix_lookup by lia.
  rewrite Hrun. unfold Spec.matches in Hiff.
  setoid_rewrite nibble_nibbles_of in Hiff. rewrite HlN.
  change (2 * 16)%nat with 32%nat. rewrite <- Hiff. split; congruence.
Qed.

(** Matching on nibbles is matching on text: for a 16-byte address and
    two strings of digits and lower-case hex letters, at most 32 bytes
    each, [matchesPattern] on the parsed strings returns true exactly
    when the hex encoding of the address starts with the first string
    and ends with the second. *)
Theorem matchesPattern_hex_view (addr p q : list Z) :
  length addr = 16%nat -> Bytes.all_bytes addr ->
  Forall lower_hex_byte p -> Forall lower_hex_byte q ->
  (length p <= 32)%nat -> (length q <= 32)%nat ->
  (matchesPattern (hexToNibbles p) (hexToNibbles q) addr = Some true
   <-> p `prefix_of` hex_EncodeToString addr /\ q `suffix_of` hex_EncodeToString addr)
  /\ length (hex_EncodeToString addr) = 32%nat.
Proof.
  intros Hlen Hbytes Hp Hq Hlp Hlq.
  split; [by apply matchesPattern_hex|].
  by rewrite hex_encode_nibbles, length_fmap, length_nibbles_of, Hlen.
Qed.

Lemma matchesPattern_hex_view_witness :
  matchesPattern (hexToNibbles (Bytes.of_string "caf")) (hexToNibbles (Bytes.of_string "be"))
    ([202; 254] ++ replicate 13 0 ++ [190]) = Some true
  <-> Bytes.of_string "caf" `prefix_of` hex_EncodeToString ([202; 254] ++ replicate 13 0 ++ [190])
      /\ Bytes.of_string "be" `suffix_of` hex_EncodeToString ([202; 254] ++ replicate 13 0 ++ [190]).
Proof.
  refine (proj1 (matchesPattern_hex_view ([202; 254] ++ replicate 13 0 ++ [190])
            (Bytes.of_string "caf") (Bytes.of_string "be") eq_refl _ _ _ _ _)).
  - unfold Bytes.all_bytes, Bytes.is_byte. simpl. repeat constructor; lia.
  - change (Bytes.of_string "caf") with [99; 97; 102]. unfold lower_hex_byte.
    repeat (apply Forall_cons; split; [lia|]). constructor.
  - change (Bytes.of_string "be") with [98; 101]. unfold lower_hex_byte.
    repeat (apply Forall_cons; split; [lia|]). constructor.
  - simpl. lia.
  - simpl. lia.
Defined.

(** ** The search: progress, the stop flag and the wait group *)

Lemma total_active_nonneg (p : list wpc) : 0 <= total active p.
Proof. induction p as [|pc p IH]; simpl; [lia|]. destruct pc; simpl; lia. Qed.

Lemma total_active_pos (p : list wpc) :
  total active p <> 0 -> exists i pc, p !! i = Some pc /\ active pc = 1.
Proof.
  induction p as [|q p IH]; simpl; [lia|]. intros H.
  destruct (decide (active q = 1)) as [Hq | Hq].
  - exists 0%nat, q. done.
  - assert (active q = 0) as Hq0 by (destruct q; simpl in *; lia).
    destruct (IH ltac:(lia)) as (i & pc & Hi & Hpc). exists (S i), pc. done.
Qed.

Lemma total_active_spawned (p : list wpc) (k : nat) :
  (forall j pc, p !! j = Some pc -> (k <= j)%nat -> pc = WIdle) ->
  total active p <= Z.of_nat k.
Proof.
  revert k. induction p as [|q p IH]; intros k H; simpl; [lia|].
  destruct k as [|k].
  - rewrite (H 0%nat q eq_refl ltac:(lia)). simpl.
    specialize (IH 0%nat). rewrite IH; [lia|].
    intros j pc Hj _. apply (H (S j) pc Hj). lia.
  - specialize (IH k). assert (active q <= 1) by (destruct q; simpl; lia).
    rewrite Nat2Z.inj_succ.
    assert (total active p <= Z.of_nat k); [|lia].
    apply IH. intros j pc Hj Hle. apply (H (S j) pc Hj). lia.
Qed.

Section SearchProgress.

Variable ScalarBaseMult : list Z -> list Z.
Variable Ed25519PublicFromSeed : list Z -> list Z.
Variable prefixNibbles postfixNibbles : list Z.
Variable workers : nat.

Local Abbreviation newIdentity' := (newIdentity ScalarBaseMult Ed25519PublicFromSeed).
Local Abbreviation worker_step' :=
  (worker_step ScalarBaseMult Ed25519PublicFromSeed prefixNibbles postfixNibbles).
Local Abbreviation exec' :=
  (exec ScalarBaseMult Ed25519PublicFromSeed prefixNibbles postfixNibbles workers).
Local Abbreviation step' :=
  (step ScalarBaseMult Ed25519PublicFromSeed prefixNibbles postfixNibbles workers).
Local Abbreviation reachable' :=
  (reachable ScalarBaseMult Ed25519PublicFromSeed prefixNibbles postfixNibbles workers).
Local Abbreviation invariant' :=
  (invariant ScalarBaseMult Ed25519PublicFromSeed prefixNibbles postfixNibbles workers).
Local Abbreviation derived' := (derived ScalarBaseMult Ed25519PublicFromSeed).
Local Abbreviation discovered' :=
  (discovered ScalarBaseMult Ed25519PublicFromSeed prefixNibbles postfixNibbles).
Local Abbreviation pc_ok' :=
  (pc_ok ScalarBaseMult Ed25519PublicFromSeed prefixNibbles postfixNibbles).

Lemma derived_address_wf id :
  derived' id -> length (Address id) = 16%nat /\ Bytes.all_bytes (Address id).
Proof.
  intros Hd.
  destruct (derived_round_trip _ _ id Hd) as (_ & _ & _ & Ha).
  rewrite Ha. split; [apply length_address|].
  unfold Spec.address. apply Forall_take, Sum256_bytes.
Qed.

Lemma worker_can_step pc draw sh :
  (length prefixNibbles <= 32)%nat -> (length postfixNibbles <= 32)%nat ->
  pc_ok' pc -> active pc = 1 ->
  is_Some (worker_step' pc draw sh).
Proof.
  intros Hpre Hpost Hok Hact.
  destruct pc; simpl in *; try lia; try by eexists.
  - by destruct (found sh =? 1).
  - by destruct draw.
  - destruct (derived_address_wf id Hok) as [Hlen Hbytes].
    destruct (matchesPattern_spec (Address id) Hlen Hbytes prefixNibbles postfixNibbles
                Hpre Hpost) as ([|] & -> & _); by eexists.
Qed.

Lemma active_worker_steps s i pc draw :
  (length prefixNibbles <= 32)%nat -> (length postfixNibbles <= 32)%nat ->
  invariant' s -> pool s !! i = Some pc -> active pc = 1 ->
  exists s', exec' (ActWorker i draw) s = Some s'.
Proof.
  intros Hpre Hpost Hinv Hi Hact.
  assert (pc_ok' pc) as Hok
    by (eapply Forall_lookup_1; [apply (inv_pcs _ _ _ _ _ _ Hinv)|exact Hi]).
  destruct (worker_can_step pc draw (shared s) Hpre Hpost Hok Hact) as [[pc' sh'] Hstep].
  eexists. by apply exec_worker_eq.
Qed.

(** With patterns of at most 32 nibbles no worker ever panics or
    blocks: in every reachable state each goroutine that has started and
    not finished can take its next step, whatever [rand.Read] returns. *)
Theorem started_worker_can_step (s : System) (i : nat) (pc : wpc) (draw : RandResult) :
  (length prefixNibbles <= 32)%nat -> (length postfixNibbles <= 32)%nat ->
  reachable' s -> pool s !! i = Some pc -> pc <> WIdle -> pc <> WExit ->
  exists s', exec' (ActWorker i draw) s = Some s'
             /\ coord s' = coord s
             /\ length (pool s') = length (pool s).
Proof.
  intros Hpre Hpost Hr Hi Hidle Hexit.
  pose proof (reachable_invariant _ _ _ _ _ s Hr) as Hinv.
  assert (active pc = 1) as Hact by (by destruct pc).
  assert (pc_ok' pc) as Hok
    by (eapply Forall_lookup_1; [apply (inv_pcs _ _ _ _ _ _ Hinv)|exact Hi]).
  destruct (worker_can_step pc draw (shared s) Hpre Hpost Hok Hact) as [[pc' sh'] Hstep].
  eexists. split; [by apply exec_worker_eq|]. simpl.
  split; [done|]. by rewrite length_insert.
Qed.

(** A worker leaves its loop only after the stop flag was set or after
    some identity was accepted by the channel. *)
Lemma reachable_leaving s :
  reachable' s ->
  forall i pc, pool s !! i = Some pc -> leaving pc ->
               found (shared s) = 1 \/ sent (hist s) <> [].
Proof.
  revert s.
  apply (rtc_ind_r (fun s => forall i pc, pool s !! i = Some pc -> leaving pc ->
                               found (shared s) = 1 \/ sent (hist s) <> []));
    [|intros s s' Hr Hstep IH].
  - intros i pc Hi [-> | ->]; simpl in Hi;
      apply lookup_replicate in Hi as [? _]; done.
  - pose proof (reachable_invariant _ _ _ _ _ s Hr) as Hinv.
    destruct Hstep as (a & Hvalid & Hexec). intros i pc Hi Hleave.
    destruct a as [i0 draw|]; simpl in Hexec.
    + destruct (pool s !! i0) as [pc0|] eqn:Hi0; [|done]. simpl in Hexec.
      destruct (worker_step' pc0 draw (shared s)) as [[pc1 sh']|] eqn:Hws; [|done].
      simpl in Hexec. injection Hexec as <-. simpl in *.
      pose proof (worker_step_shape _ _ _ _ _ _ _ _ _ Hws) as (_ & _ & Hf & _).
      assert (Hmono : found (shared s) = 1 \/ sent (hist s) <> [] ->
                found sh' = 1 \/ sent (record_worker pc0 (shared s) (hist s)) <> []).
      { intros [H|H]; [left; by rewrite Hf|right].
        destruct pc0; simpl; try done.
        destruct (length (resultChan (shared s)) <? 1)%nat; simpl; [|done].
        by destruct (sent (hist s)). }
      apply list_lookup_insert_Some in Hi as [(-> & -> & Hlt) | (Hne & Hi)].
      * destruct pc0; simpl in Hws; try done.
        -- destruct (Z.eqb_spec (found (shared s)) 1); injection Hws as <- <-;
             [by left | by destruct Hleave].
        -- destruct draw; injection Hws as <- <-; by destruct Hleave.
        -- injection Hws as <- <-. by destruct Hleave.
        -- destruct (matchesPattern _ _ _) as [[|]|]; try done;
             injection Hws as <- <-; by destruct Hleave.
        -- injection Hws as <- <-. right. simpl.
           destruct (length (resultChan (shared s)) <? 1)%nat eqn:Hroom; simpl.
           ++ by destruct (sent (hist s)).
           ++ rewrite (inv_chan _ _ _ _ _ _ Hinv).
              destruct (resultChan (shared s)); [done|].
              by destruct (received (hist s)).
        -- apply Hmono. apply (IH i WDefer Hi0). by left.
      * apply Hmono. by apply (IH i pc).
    + unfold main_step in Hexec.
      destruct (coord s) eqn:Hc.
      * destruct (_ <? _)%nat; injection Hexec as <-; simpl in *; by apply (IH i pc).
      * injection Hexec as <-. simpl in *.
        apply list_lookup_insert_Some in Hi as [(_ & <- & _) | (_ & Hi)];
          [by destruct Hleave | by apply (IH i pc)].
      * destruct (resultChan (shared s)); [done|].
        injection Hexec as <-. simpl in *. by apply (IH i pc).
      * injection Hexec as <-. simpl. by left.
      * destruct (_ =? _); [|done]. injection Hexec as <-. simpl in *.
        by apply (IH i pc).
      * done.
Qed.

(** With at least one worker and patterns of at most 32 nibbles the
    search never deadlocks: in every reachable state either [main] is
    past [wg.Wait] or some goroutine can take a step. *)
Theorem search_never_deadlocks (s : System) :
  (1 <= workers)%nat ->
  (length prefixNibbles <= 32)%nat -> (length postfixNibbles <= 32)%nat ->
  reachable' s ->
  (exists id, coord s = MReturned id) \/ (exists s', step' s s').
Proof.
  intros Hw Hpre Hpost Hr.
  pose proof (reachable_invariant _ _ _ _ _ s Hr) as Hinv.
  assert (Hworker : forall i pc, pool s !! i = Some pc -> active pc = 1 ->
                      exists s', step' s s').
  { intros i pc Hi Hact.
    destruct (active_worker_steps s i pc RandErr Hpre Hpost Hinv Hi Hact) as [s' Hs'].
    exists s', (ActWorker i RandErr). done. }
  assert (Hmain : is_Some (main_step workers s) -> exists s', step' s s').
  { intros [s' Hs']. exists s', ActMain. done. }
  destruct (coord s) as [i|i| |id|id|id] eqn:Hc.
  - right. apply Hmain. unfold main_step. rewrite Hc.
    by destruct (i <? workers)%nat.
  - right. apply Hmain. unfold main_step. by rewrite Hc.
  - right. destruct (resultChan (shared s)) as [|id rest] eqn:Hch.
    + destruct (lookup_lt_is_Some_2 (pool s) 0%nat) as [pc Hpc].
      { rewrite (inv_len _ _ _ _ _ _ Hinv). lia. }
      destruct (decide (active pc = 1)) as [Hact | Hact]; [by apply (Hworker 0%nat pc)|].
      exfalso.
      destruct (inv_spawn _ _ _ _ _ _ Hinv) as (_ & _ & Hsp).
      rewrite Hc in Hsp. simpl in Hsp.
      assert (pc = WExit) as ->.
      { destruct pc; simpl in Hact; try done.
        pose proof (proj1 (Hsp 0%nat WIdle Hpc) eq_refl). lia. }
      destruct (reachable_leaving s Hr 0%nat WExit Hpc) as [Hf | Hs]; [by right| |].
      * rewrite (inv_found _ _ _ _ _ _ Hinv), Hc in Hf. done.
      * apply Hs. rewrite (inv_chan _ _ _ _ _ _ Hinv), (inv_recv _ _ _ _ _ _ Hinv), Hc, Hch.
        done.
    + apply Hmain. unfold main_step. by rewrite Hc, Hch.
  - right. apply Hmain. unfold main_step. by rewrite Hc.
  - right. destruct (Z.eqb_spec (wg (shared s)) 0) as [Hz | Hnz].
    + apply Hmain. unfold main_step. rewrite Hc.
      destruct (Z.eqb_spec (wg (shared s)) 0); done.
    + pose proof (inv_wg _ _ _ _ _ _ Hinv) as Hwg. rewrite Hc in Hwg.
      destruct (total_active_pos (pool s) ltac:(lia)) as (i & pc & Hi & Hact).
      by apply (Hworker i pc).
  - left. by exists id.
Qed.

(** The stop flag is one-shot: it is 0 or 1, it is 1 exactly when
    [main] has stored it, no step resets it, and the only step that
    changes it is the store of [main], made when [main] holds the
    identity it received. *)
Theorem stop_flag_one_shot (s s' : System) :
  reachable' s -> step' s s' ->
  (found (shared s) = 0 \/ found (shared s) = 1)
  /\ (found (shared s) = 1 <->
      exists id, coord s = MWait id \/ coord s = MReturned id)
  /\ (found (shared s) = 1 -> found (shared s') = 1)
  /\ (found (shared s') <> found (shared s) ->
      exists id, coord s = MStore id /\ coord s' = MWait id
                 /\ received (hist s) = [id]).
Proof.
  intros Hr Hstep.
  pose proof (reachable_invariant _ _ _ _ _ s Hr) as Hinv.
  pose proof (inv_found _ _ _ _ _ _ Hinv) as Hf.
  pose proof (inv_recv _ _ _ _ _ _ Hinv) as Hrecv.
  assert (Hnext : found (shared s') = found (shared s)
                  \/ exists id, coord s = MStore id /\ coord s' = MWait id
                                /\ found (shared s') = 1).
  { destruct Hstep as (a & _ & Hexec). destruct a as [i draw|]; simpl in Hexec.
    - destruct (pool s !! i) as [pc|]; [|done]. simpl in Hexec.
      destruct (worker_step' pc draw (shared s)) as [[pc' sh']|] eqn:Hws; [|done].
      simpl in Hexec. injection Hexec as <-. simpl. left.
      by destruct (worker_step_shape _ _ _ _ _ _ _ _ _ Hws) as (_ & _ & -> & _).
    - unfold main_step in Hexec. destruct (coord s) as [i|i| |id|id|id]; try done.
      + destruct (_ <? _)%nat; injection Hexec as <-; by left.
      + injection Hexec as <-. by left.
      + destruct (resultChan (shared s)); [done|]. injection Hexec as <-. by left.
      + injection Hexec as <-. right. by exists id.
      + destruct (_ =? _); [|done]. injection Hexec as <-. by left. }
  split; [rewrite Hf; destruct (coord s); auto|].
  split.
  { rewrite Hf. destruct (coord s) as [i|i| |id|id|id]; split;
      try done; try (intros (id' & [?|?]); done); intros _; exists id; auto. }
  split.
  { intros H1. destruct Hnext as [-> | (id & _ & _ & ->)]; done. }
  intros Hne. destruct Hnext as [Heq | (id & Hc & Hc' & _)]; [done|].
  exists id. rewrite Hrecv, Hc. done.
Qed.

(** The wait-group counter never goes negative and never exceeds the
    number of workers; it counts the goroutines that have started and
    not yet run their deferred [wg.Done], plus the one [main] has
    announced and not yet started. *)
Theorem waitgroup_counter_bounds (s : System) :
  reachable' s ->
  0 <= wg (shared s) <= Z.of_nat workers
  /\ wg (shared s)
     = total active (pool s) + match coord s with MGo _ => 1 | _ => 0 end.
Proof.
  intros Hr. pose proof (reachable_invariant _ _ _ _ _ s Hr) as Hinv.
  pose proof (inv_wg _ _ _ _ _ _ Hinv) as Hwg.
  destruct (inv_spawn _ _ _ _ _ _ Hinv) as (Hsp1 & Hsp2 & Hsp3).
  pose proof (total_active_nonneg (pool s)) as Hnn.
  assert (total active (pool s) <= Z.of_nat (spawn_count workers (coord s))) as Hle.
  { apply total_active_spawned. intros j pc Hj Hk. by apply (Hsp3 j pc Hj). }
  split; [|exact Hwg]. rewrite Hwg.
  destruct (coord s) as [i|i| |id|id|id] eqn:Hc; simpl in *; try lia.
  specialize (Hsp2 i eq_refl). lia.
Qed.

Lemma returned_all_exit s id :
  invariant' s -> coord s = MReturned id ->
  Forall (fun pc => pc = WExit) (pool s).
Proof.
  intros Hinv Hc.
  pose proof (inv_wg _ _ _ _ _ _ Hinv) as Hwg.
  pose proof (inv_done _ _ _ _ _ _ Hinv) as Hdone.
  destruct (inv_spawn _ _ _ _ _ _ Hinv) as (_ & _ & Hsp).
  pose proof (inv_len _ _ _ _ _ _ Hinv) as Hlen.
  rewrite Hc in *. simpl in *.
  assert (total active (pool s) = 0) as Hz by lia.
  apply total_active_zero in Hz.
  apply Forall_lookup. intros j pc Hj.
  pose proof (Forall_lookup_1 _ _ _ _ Hz Hj) as Ha.
  destruct pc; simpl in Ha; try lia; [|done].
  pose proof (lookup_lt_Some _ _ _ Hj).
  pose proof (proj1 (Hsp j WIdle Hj) eq_refl). lia.
Qed.

(** When [main] is past [wg.Wait] no iteration is in flight, so the
    total it prints is exactly the number of iterations that were run to
    the end of their match test, modulo 2^64. *)
Theorem attempts_at_return (s : System) (id : Identity) :
  reachable' s -> coord s = MReturned id ->
  totalAttempts (shared s) = wrap64 (completed (hist s))
  /\ total counted (pool s) = 0
  /\ 0 <= totalAttempts (shared s) < 2 ^ 64.
Proof.
  intros Hr Hc. pose proof (reachable_invariant _ _ _ _ _ s Hr) as Hinv.
  pose proof (returned_all_exit s id Hinv Hc) as Hexit.
  assert (total counted (pool s) = 0) as Hz.
  { induction Hexit as [|pc p -> _ IH]; simpl; [done|]. lia. }
  pose proof (inv_count _ _ _ _ _ _ Hinv) as Hcount.
  rewrite Hz, Z.add_0_r in Hcount.
  split; [done|]. split; [done|]. rewrite Hcount. apply wrap64_range.
Qed.

End SearchProgress.

Lemma at_store_reachable :
  reachable sample_ScalarBaseMult sample_Ed25519Public [2] [] 2 at_store.
Proof.
  eapply (run_reachable _ _ _ _ _ (take 15 two_winners));
    [apply rtc_refl | apply Forall_take, two_winners_valid | vm_compute; reflexivity].
Qed.

Lemma started_worker_can_step_witness :
  exists s',
    exec sample_ScalarBaseMult sample_Ed25519Public [2] [] 2
      (ActWorker 1 RandErr) at_store = Some s'
    /\ coord s' = coord at_store /\ length (pool s') = length (pool at_store).
Proof.
  apply (started_worker_can_step sample_ScalarBaseMult sample_Ed25519Public [2] [] 2
           at_store 1 (WSend (sample_newIdentity buf_b)) RandErr);
    [simpl; lia | simpl; lia | apply at_store_reachable | reflexivity | done | done].
Defined.

Lemma search_never_deadlocks_witness :
  (exists id, coord at_store = MReturned id)
  \/ (exists s', step sample_ScalarBaseMult sample_Ed25519Public [2] [] 2 at_store s').
Proof.
  apply (search_never_deadlocks sample_ScalarBaseMult sample_Ed25519Public [2] [] 2 at_store);
    [lia | simpl; lia | simpl; lia | apply at_store_reachable].
Defined.

Lemma stop_flag_one_shot_witness :
  exists id, coord at_store = MStore id /\ coord after_store = MWait id
             /\ received (hist at_store) = [id].
Proof.
  assert (Hstep : step sample_ScalarBaseMult sample_Ed25519Public [2] [] 2
                    at_store after_store).
  { exists ActMain. split; [exact I|]. reflexivity. }
  refine (proj2 (proj2 (proj2
    (stop_flag_one_shot sample_ScalarBaseMult sample_Ed25519Public [2] [] 2
       at_store after_store at_store_reachable Hstep))) _).
  simpl. lia.
Defined.

Lemma waitgroup_counter_bounds_witness :
  0 <= wg (shared at_store) <= 2.
Proof.
  exact (proj1 (waitgroup_counter_bounds sample_ScalarBaseMult sample_Ed25519Public
                  [2] [] 2 at_store at_store_reachable)).
Defined.

Lemma attempts_at_return_witness :
  totalAttempts (shared two_winners_final) = wrap64 (completed (hist two_winners_final)).
Proof.
  exact (proj1 (attempts_at_return sample_ScalarBaseMult sample_Ed25519Public [2] [] 2
                  two_winners_final (sample_newIdentity buf_a)
                  two_winners_reachable eq_refl)).
Defined.

(** ** From the flags to the address found *)

Lemma lowerByte_hex c : hexRune c = true -> lower_hex_byte (lowerByte c).
Proof. unfold hexRune, lower_hex_byte, lowerByte. intros H. case_match; lia. Qed.

Lemma validated_flag ul s :
  isHex s = true ->
  ToLower ul s = lowerByte <$> s
  /\ Forall lower_hex_byte (ToLower ul s)
  /\ length (ToLower ul s) = length s
  /\ parsePattern ul s = hexToNibbles (ToLower ul s).
Proof.
  intros H. apply isHex_bytes in H as [_ H].
  pose proof (ToLower_hex ul s H) as Hl.
  split; [done|]. rewrite Hl.
  split.
  { apply Forall_fmap, Forall_forall. intros c Hc. apply lowerByte_hex.
    apply (proj1 (forallb_forall _ _) H). by apply list_elem_of_In. }
  split; [apply length_fmap|].
  unfold parsePattern. rewrite Hl. by destruct s.
Qed.

(** A configuration that passes [validateInputs] gives [matchesPattern]
    patterns inside its safe range: each parsed pattern has the length
    of its flag, at most 32, holds nibbles between 0 and 15, and is the
    parse of the lower-cased flag; at least one pattern is not empty and
    at least one worker is started. *)
Theorem validated_patterns_well_formed
    (unicodeLower : list Z -> list Z) (prefix postfix : list Z) (workers : Z) :
  validateInputs prefix postfix workers = None ->
  let pre := parsePattern unicodeLower prefix in
  let post := parsePattern unicodeLower postfix in
  length pre = length prefix /\ length post = length postfix
  /\ (length pre <= 32)%nat /\ (length post <= 32)%nat
  /\ Forall (fun n => 0 <= n <= 15) pre /\ Forall (fun n => 0 <= n <= 15) post
  /\ pre = hexToNibbles (ToLower unicodeLower prefix)
  /\ post = hexToNibbles (ToLower unicodeLower postfix)
  /\ (pre <> [] \/ post <> [])
  /\ (1 <= Z.to_nat workers)%nat.
Proof.
  intros Hv pre post.
  apply validateInputs_None in Hv as (Hlp & Hhp & Hlq & Hhq & Hne & Hw).
  destruct (validated_flag unicodeLower prefix Hhp) as (_ & _ & Hlen1 & Hpre).
  destruct (validated_flag unicodeLower postfix Hhq) as (_ & _ & Hlen2 & Hpost).
  assert (forall s, Forall (fun n => 0 <= n <= 15) (hexToNibbles s)) as Hrange.
  { intros s. rewrite hexToNibbles_fmap. apply Forall_fmap, Forall_forall.
    intros c _. unfold Spec.lower_hex_or_zero. simpl. repeat case_match; lia. }
  assert (length pre = length prefix) as Hl1.
  { unfold pre. rewrite Hpre, hexToNibbles_fmap, length_fmap. done. }
  assert (length post = length postfix) as Hl2.
  { unfold post. rewrite Hpost, hexToNibbles_fmap, length_fmap. done. }
  unfold len in *.
  split; [done|]. split; [done|].
  split; [lia|]. split; [lia|].
  split; [unfold pre; rewrite Hpre; apply Hrange|].
  split; [unfold post; rewrite Hpost; apply Hrange|].
  split; [done|]. split; [done|].
  split; [|lia].
  destruct prefix as [|c prefix]; [|left; intros H0; by rewrite H0 in Hl1].
  destruct postfix as [|d postfix]; [exfalso; by apply Hne|].
  right. intros H0. by rewrite H0 in Hl2.
Qed.

Lemma validated_patterns_well_formed_witness :
  parsePattern (fun s => s) (Bytes.of_string "Cafe")
  = hexToNibbles (ToLower (fun s => s) (Bytes.of_string "Cafe")).
Proof.
  pose proof (validated_patterns_well_formed (fun s => s) (Bytes.of_string "Cafe") [] 4
                eq_refl) as H.
  exact (proj1 (proj2 (proj2 (proj2 (proj2 (proj2 (proj2 H))))))).
Defined.

(** The address of the identity [main] ends up with is the one asked
    for: for a configuration that passed [validateInputs], in every
    reachable state of the search started by [main], the hex encoding of
    the address of the identity [main] holds starts with the lower-cased
    prefix flag and ends with the lower-cased postfix flag. *)
Theorem found_address_matches_flags
    (ScalarBaseMult Ed25519PublicFromSeed unicodeLower : list Z -> list Z)
    (prefix postfix : list Z) (workers : Z) (s : System) (id : Identity) :
  validateInputs prefix postfix workers = None ->
  reachable ScalarBaseMult Ed25519PublicFromSeed
    (parsePattern unicodeLower prefix) (parsePattern unicodeLower postfix)
    (Z.to_nat workers) s ->
  In id (holds (coord s)) ->
  ToLower unicodeLower prefix `prefix_of` hex_EncodeToString (Address id)
  /\ ToLower unicodeLower postfix `suffix_of` hex_EncodeToString (Address id)
  /\ length (hex_EncodeToString (Address id)) = 32%nat.
Proof.
  intros Hv Hr Hin.
  apply validateInputs_None in Hv as (Hlp & Hhp & Hlq & Hhq & _ & _).
  destruct (validated_flag unicodeLower prefix Hhp) as (_ & Hp & Hlen1 & Hpre).
  destruct (validated_flag unicodeLower postfix Hhq) as (_ & Hq & Hlen2 & Hpost).
  destruct (held_discovered _ _ _ _ _ s id Hr (or_introl Hin)) as [Hd Hm].
  destruct (derived_address_wf _ _ id Hd) as [Hlen Hbytes].
  rewrite Hpre, Hpost in Hm. unfold len in *.
  apply matchesPattern_hex in Hm as [H1 H2]; try done; try lia.
  split; [done|]. split; [done|].
  by rewrite hex_encode_nibbles, length_fmap, length_nibbles_of, Hlen.
Qed.

Lemma found_address_matches_flags_witness :
  Bytes.of_string "2" `prefix_of` hex_EncodeToString (Address (sample_newIdentity buf_a)).
Proof.
  refine (proj1 (found_address_matches_flags sample_ScalarBaseMult sample_Ed25519Public
            (fun s => s) (Bytes.of_string "2") [] 2 two_winners_final
            (sample_newIdentity buf_a) eq_refl two_winners_reachable _)).
  left. reflexivity.
Defined.

(** ** [matchesPattern] beyond 32 nibbles *)

Lemma prefix_loop_overrun (addr pat : list Z) :
  length addr = 16%nat -> Bytes.all_bytes addr ->
  forall rem j, (j <= 32)%nat -> (j + rem = length pat)%nat -> (32 < length pat)%nat ->
    (forall i, (j <= i < 32)%nat -> Spec.nibble addr i = pat !! i) ->
    prefix_loop rem addr pat (Z.of_nat j) = None.
Proof.
  intros Hlen Hbytes. induction rem as [|rem IH]; intros j Hj Hrem Hlong Hagree; [lia|].
  cbn [prefix_loop]. cbv zeta.
  destruct (decide (j = 32%nat)) as [-> | Hne].
  - unfold Bytes.index. rewrite Hlen. done.
  - destruct (loop_body_nibble addr Hlen Hbytes j ltac:(lia)) as [Hbody [n Hn]].
    rewrite Hn in Hbody.
    destruct (Bytes.index addr (Z.quot (Z.of_nat j) 2)) as [b|]; [|done].
    cbn [mbind option_bind] in Hbody |- *. injection Hbody as ->.
    rewrite index_nat by lia.
    rewrite <- (Hagree j ltac:(lia)), Hn. cbn [mbind option_bind].
    rewrite Z.eqb_refl. cbn [negb].
    replace (Z.of_nat j + 1) with (Z.of_nat (S j)) by lia.
    apply IH; try lia. intros i Hi. apply Hagree. lia.
Qed.

(** The 32-character limit of the validation is what keeps
    [matchesPattern] inside the address: with a prefix of more than 32
    nibbles whose first 32 nibbles are those of a 16-byte address, the
    prefix loop reads [addr[16]] and the call panics. *)
Theorem matchesPattern_long_prefix_panics (addr prefixNibbles postfixNibbles : list Z) :
  length addr = 16%nat -> Bytes.all_bytes addr ->
  (32 < length prefixNibbles)%nat ->
  take 32 prefixNibbles = nibbles_of addr ->
  matchesPattern prefixNibbles postfixNibbles addr = None.
Proof.
  intros Hlen Hbytes Hlong Hagree. unfold matchesPattern, len.
  destruct (Z.ltb_spec 0 (Z.of_nat (length prefixNibbles))); [|lia].
  pose proof (prefix_loop_overrun addr prefixNibbles Hlen Hbytes
                (length prefixNibbles) 0%nat ltac:(lia) ltac:(lia) Hlong) as Hp.
  change (Z.of_nat 0) with 0 in Hp. rewrite Hp; [done|].
  intros i Hi. rewrite nibble_nibbles_of, <- Hagree. by rewrite lookup_take_lt by lia.
Qed.

Lemma matchesPattern_long_prefix_panics_witness :
  matchesPattern (replicate 33 0) [] (replicate 16 0) = None.
Proof.
  apply matchesPattern_long_prefix_panics.
  - reflexivity.
  - apply Forall_replicate. unfold Bytes.is_byte. lia.
  - simpl. lia.
  - reflexivity.
Defined.

(** ** [saveIdentity]: errors and the other files *)

Lemma os_Create_other path p w :
  p <> path -> files (os_Create path w).2 !! p = files w !! p.
Proof.
  intros Hne. unfold os_Create. pose proof (next_fault_files w) as Hf.
  destruct (next_fault w) as [[|n] w0]; simpl in *.
  - rewrite lookup_insert_ne by done. by rewrite Hf.
  - by rewrite Hf.
Qed.

Lemma next_fault_rest w : faults (next_fault w).2 = tail (faults w).
Proof. unfold next_fault. destruct (faults w) eqn:E; simpl; [by rewrite E|done]. Qed.

Lemma os_Create_faults path w : faults (os_Create path w).2 = tail (faults w).
Proof.
  unfold os_Create. pose proof (next_fault_rest w) as Hf.
  by destruct (next_fault w) as [[|n] w0].
Qed.

Lemma file_Write_faults path b w : faults (file_Write path b w).2 = tail (faults w).
Proof.
  unfold file_Write. pose proof (next_fault_rest w) as Hf.
  by destruct (next_fault w) as [[|n] w0].
Qed.

Lemma os_Create_next_ok path w : (os_Create path w).1 = next_ok w.
Proof. unfold os_Create, next_fault, next_ok. by destruct (faults w) as [|[|n] rest]. Qed.

Lemma file_Write_next_ok path b w : (file_Write path b w).1 = next_ok w.
Proof. unfold file_Write, next_fault, next_ok. by destruct (faults w) as [|[|n] rest]. Qed.

(** The first four operations of [saveIdentity], one after the other. *)
Lemma saveIdentity_steps b64 b32 identity path w :
  let w1 := (os_Create path w).2 in
  let w2 := (file_Write path (X25519Private identity) w1).2 in
  let w3 := (file_Write path (Ed25519Seed identity) w2).2 in
  let w4 := (os_Create (path +:+ ".txt") w3).2 in
  saveIdentity b64 b32 identity path w =
    if negb (next_ok w) then (Some (ErrCreate path), w1)
    else if negb (next_ok w1) then (Some (ErrWrite path), w2)
    else if negb (next_ok w2) then (Some (ErrWrite path), w3)
    else if negb (next_ok w3) then (Some (ErrCreate (path +:+ ".txt")), w4)
    else (None, fold_left (fun w chunk => snd (file_Write (path +:+ ".txt") chunk w))
                          (report b64 b32 identity) w4).
Proof.
  intros w1 w2 w3 w4. unfold saveIdentity.
  rewrite <- (os_Create_next_ok path w).
  rewrite <- (file_Write_next_ok path (X25519Private identity) w1).
  rewrite <- (file_Write_next_ok path (Ed25519Seed identity) w2).
  rewrite <- (os_Create_next_ok (path +:+ ".txt") w3).
  unfold w4, w3, w2, w1.
  destruct (os_Create path w) as [[|] x1]; cbn [fst snd negb]; [|done].
  destruct (file_Write path (X25519Private identity) x1) as [[|] x2];
    cbn [fst snd negb]; [|done].
  destruct (file_Write path (Ed25519Seed identity) x2) as [[|] x3];
    cbn [fst snd negb]; [|done].
  by destruct (os_Create (path +:+ ".txt") x3) as [[|] x4].
Qed.

(** [saveIdentity] returns an error exactly when one of its first four
    file operations fails - creating the identity file, writing the
    private key, writing the seed, creating the report file.  A failure
    of any of the fourteen report writes is never reported. *)
Theorem saveIdentity_error_iff
    (base64_Std base32_Std : list Z -> list Z)
    (identity : Identity) (path : string) (w : World) :
  (saveIdentity base64_Std base32_Std identity path w).1 = None
  <-> Forall (fun f => f = Succeeds) (take 4 (faults w)).
Proof.
  pose proof (saveIdentity_steps base64_Std base32_Std identity path w) as Hs.
  cbv zeta in Hs. rewrite Hs. clear Hs.
  pose proof (os_Create_faults path w) as H1.
  set (w1 := (os_Create path w).2) in *.
  pose proof (file_Write_faults path (X25519Private identity) w1) as H2.
  set (w2 := (file_Write path (X25519Private identity) w1).2) in *.
  pose proof (file_Write_faults path (Ed25519Seed identity) w2) as H3.
  set (w3 := (file_Write path (Ed25519Seed identity) w2).2) in *.
  unfold next_ok. rewrite H3, H2, H1.
  destruct (faults w) as [|[|n1] [|[|n2] [|[|n3] [|[|n4] rest]]]]; simpl;
    split; intros H; try done; repeat constructor;
    repeat match goal with
           | H : Forall _ (_ :: _) |- _ => apply Forall_cons in H as [? H]
           end; done.
Qed.

(** [saveIdentity] touches two files only: whatever the environment
    does, every file other than [path] and [path.txt] is afterwards what
    it was before. *)
Theorem saveIdentity_other_files
    (base64_Std base32_Std : list Z -> list Z)
    (identity : Identity) (path p : string) (w : World) :
  p <> path -> p <> (path +:+ ".txt")%string ->
  files (saveIdentity base64_Std base32_Std identity path w).2 !! p = files w !! p.
Proof.
  intros Hp Hinfo.
  pose proof (saveIdentity_steps base64_Std base32_Std identity path w) as Hs.
  cbv zeta in Hs. rewrite Hs. clear Hs.
  pose proof (os_Create_other path p w Hp) as H1.
  set (w1 := (os_Create path w).2) in *.
  pose proof (file_Write_other path p (X25519Private identity) w1 Hp) as H2.
  set (w2 := (file_Write path (X25519Private identity) w1).2) in *.
  pose proof (file_Write_other path p (Ed25519Seed identity) w2 Hp) as H3.
  set (w3 := (file_Write path (Ed25519Seed identity) w2).2) in *.
  pose proof (os_Create_other (path +:+ ".txt") p w3 Hinfo) as H4.
  set (w4 := (os_Create (path +:+ ".txt") w3).2) in *.
  repeat case_match; cbn [snd]; rewrite ?write_all_other by done; congruence.
Qed.

Lemma saveIdentity_other_files_witness :
  files (saveIdentity (fun b => b) (fun b => b) sample_identity "identity"
           (mkWorld {["notes" := [1; 2; 3]]} [Succeeds; FailsAfter 5])).2 !! "notes"%string
  = Some [1; 2; 3].
Proof.
  rewrite (saveIdentity_other_files (fun b => b) (fun b => b) sample_identity
             "identity" "notes"); [reflexivity | done | done].
Defined.

Lemma no_fault_after_Create path w :
  faults w = [] ->
  faults (os_Create path w).2 = [] /\ files (os_Create path w).2 !! path = Some []
  /\ next_ok w = true.
Proof.
  intros H. unfold os_Create, next_fault, next_ok. rewrite H. simpl.
  by rewrite lookup_insert_eq.
Qed.

Lemma no_fault_after_Write path b w :
  faults w = [] ->
  faults (file_Write path b w).2 = []
  /\ files (file_Write path b w).2 !! path = Some (default [] (files w !! path) ++ b)
  /\ next_ok w = true.
Proof.
  intros H. unfold file_Write, next_fault, next_ok. rewrite H. simpl.
  by rewrite lookup_insert_eq.
Qed.

Lemma write_all_content path chunks w c :
  faults w = [] -> files w !! path = Some c ->
  files (fold_left (fun w chunk => snd (file_Write path chunk w)) chunks w) !! path
    = Some (c ++ mjoin chunks)
  /\ faults (fold_left (fun w chunk => snd (file_Write path chunk w)) chunks w) = [].
Proof.
  revert w c. induction chunks as [|x chunks IH]; intros w c Hw Hc; simpl.
  - by rewrite app_nil_r.
  - destruct (no_fault_after_Write path x w Hw) as (Hf & Hfile & _).
    rewrite Hc in Hfile. simpl in Hfile.
    destruct (IH _ _ Hf Hfile) as [-> ->]. by rewrite <- app_assoc.
Qed.

(** When no file operation fails, [saveIdentity] returns [nil] and the
    report file [path.txt] holds exactly the lines of the report, in
    order, whatever either file held before; the address line of the
    report is the hex encoding of the address. *)
Theorem saveIdentity_report_file
    (base64_Std base32_Std : list Z -> list Z)
    (identity : Identity) (path : string) (w : World) :
  faults w = [] ->
  (saveIdentity base64_Std base32_Std identity path w).1 = None
  /\ files (saveIdentity base64_Std base32_Std identity path w).2
       !! (path +:+ ".txt")%string
     = Some (mjoin (report base64_Std base32_Std identity))
  /\ report base64_Std base32_Std identity !! 2%nat
     = Some (Bytes.of_string "Address (LXMF): "
             ++ hex_EncodeToString (Address identity) ++ [10])
  /\ length (report base64_Std base32_Std identity) = 14%nat.
Proof.
  intros Hw.
  pose proof (saveIdentity_steps base64_Std base32_Std identity path w) as Hs.
  cbv zeta in Hs. rewrite Hs. clear Hs.
  destruct (no_fault_after_Create path w Hw) as (H1 & _ & ->).
  set (w1 := (os_Create path w).2) in *.
  destruct (no_fault_after_Write path (X25519Private identity) w1 H1) as (H2 & _ & ->).
  set (w2 := (file_Write path (X25519Private identity) w1).2) in *.
  destruct (no_fault_after_Write path (Ed25519Seed identity) w2 H2) as (H3 & _ & ->).
  set (w3 := (file_Write path (Ed25519Seed identity) w2).2) in *.
  destruct (no_fault_after_Create (path +:+ ".txt") w3 H3) as (H4 & Hfile & ->).
  set (w4 := (os_Create (path +:+ ".txt") w3).2) in *.
  cbn [negb fst snd].
  split; [done|].
  split; [|done].
  by destruct (write_all_content (path +:+ ".txt")
                 (report base64_Std base32_Std identity) w4 [] H4 Hfile) as [-> _].
Qed.

Lemma saveIdentity_report_file_witness :
  files (saveIdentity (fun b => b) (fun b => b) sample_identity "identity"
           (mkWorld {["identity.txt" := [7; 7]]} [])).2 !! "identity.txt"%string
  = Some (mjoin (report (fun b => b) (fun b => b) sample_identity)).
Proof.
  exact (proj1 (proj2 (saveIdentity_report_file (fun b => b) (fun b => b) sample_identity
                         "identity" (mkWorld {["identity.txt" := [7; 7]]} []) eq_refl))).
Defined.

Lemma binary_file_after_writes path a b w :
  next_ok w = true ->
  next_ok (os_Create path w).2 = true ->
  next_ok (file_Write path a (os_Create path w).2).2 = true ->
  files (file_Write path b (file_Write path a (os_Create path w).2).2).2 !! path
  = Some (a ++ b).
Proof.
  intros H1 H2 H3.
  assert (Hc : forall w, next_ok w = true -> files (os_Create path w).2 !! path = Some []).
  { intros w0. unfold next_ok, os_Create, next_fault.
    destruct (faults w0) as [|[|n] rest]; try done; intros _; simpl;
      apply lookup_insert_eq. }
  assert (Hwr : forall x w, next_ok w = true ->
            files (file_Write path x w).2 !! path
            = Some (default [] (files w !! path) ++ x)).
  { intros x w0. unfold next_ok, file_Write, next_fault.
    destruct (faults w0) as [|[|n] rest]; try done; intros _; simpl;
      apply lookup_insert_eq. }
  rewrite (Hwr b _ H3), (Hwr a _ H2), (Hc w H1). simpl. done.
Qed.

(** An error from [saveIdentity] does not mean that no identity was
    saved: when the first three operations succeed and creating the
    report file fails, the call returns that error although the identity
    file already holds the private key and the seed, and the report file
    is left as it was. *)
Theorem saveIdentity_error_after_identity_saved
    (base64_Std base32_Std : list Z -> list Z)
    (identity : Identity) (path : string) (w : World) (n : nat) (rest : list fault) :
  faults w = Succeeds :: Succeeds :: Succeeds :: FailsAfter n :: rest ->
  (saveIdentity base64_Std base32_Std identity path w).1
    = Some (ErrCreate (path +:+ ".txt"))
  /\ files (saveIdentity base64_Std base32_Std identity path w).2 !! path
     = Some (X25519Private identity ++ Ed25519Seed identity)
  /\ files (saveIdentity base64_Std base32_Std identity path w).2
       !! (path +:+ ".txt")%string
     = files w !! (path +:+ ".txt")%string
  /\ faults (saveIdentity base64_Std base32_Std identity path w).2 = rest.
Proof.
  intros Hw.
  pose proof (saveIdentity_steps base64_Std base32_Std identity path w) as Hs.
  cbv zeta in Hs. rewrite Hs. clear Hs.
  pose proof (binary_file_after_writes path (X25519Private identity)
                (Ed25519Seed identity) w) as Hbin.
  pose proof (os_Create_faults path w) as H1.
  pose proof (os_Create_other path (path +:+ ".txt") w
                (not_eq_sym (info_path_distinct path))) as O1.
  set (w1 := (os_Create path w).2) in *.
  pose proof (file_Write_faults path (X25519Private identity) w1) as H2.
  pose proof (file_Write_other path (path +:+ ".txt") (X25519Private identity) w1
                (not_eq_sym (info_path_distinct path))) as O2.
  set (w2 := (file_Write path (X25519Private identity) w1).2) in *.
  pose proof (file_Write_faults path (Ed25519Seed identity) w2) as H3.
  pose proof (file_Write_other path (path +:+ ".txt") (Ed25519Seed identity) w2
                (not_eq_sym (info_path_distinct path))) as O3.
  set (w3 := (file_Write path (Ed25519Seed identity) w2).2) in *.
  pose proof (os_Create_faults (path +:+ ".txt") w3) as H4.
  pose proof (os_Create_other (path +:+ ".txt") path w3 (info_path_distinct path)) as O4.
  rewrite Hw in H1. simpl in H1. rewrite H1 in H2. simpl in H2.
  rewrite H2 in H3. simpl in H3. rewrite H3 in H4. simpl in H4.
  assert (next_ok w = true) as E0 by (unfold next_ok; by rewrite Hw).
  assert (next_ok w1 = true) as E1 by (unfold next_ok; by rewrite H1).
  assert (next_ok w2 = true) as E2 by (unfold next_ok; by rewrite H2).
  assert (next_ok w3 = false) as E3 by (unfold next_ok; by rewrite H3).
  rewrite E0, E1, E2, E3. cbn [negb fst snd].
  split; [done|].
  split; [rewrite O4; by apply Hbin|].
  split; [|done].
  unfold os_Create, next_fault. rewrite H3. cbn [snd files].
  by rewrite O3, O2, O1.
Qed.

Lemma saveIdentity_error_after_identity_saved_witness :
  files (saveIdentity (fun b => b) (fun b => b) sample_identity "identity"
           (mkWorld ∅ [Succeeds; Succeeds; Succeeds; FailsAfter 0])).2 !! "identity"%string
  = Some (replicate 32 1 ++ replicate 32 3).
Proof.
  exact (proj1 (proj2 (saveIdentity_error_after_identity_saved (fun b => b) (fun b => b)
           sample_identity "identity"
           (mkWorld ∅ [Succeeds; Succeeds; Succeeds; FailsAfter 0]) 0 [] eq_refl))).
Defined.

(** ** From the random bytes to the identity file *)

Lemma newIdentity_keys sbm ed randBuf :
  length randBuf = 64%nat ->
  X25519Private (newIdentity sbm ed randBuf) = clampX25519 (take 32 randBuf)
  /\ Ed25519Seed (newIdentity sbm ed randBuf) = drop 32 randBuf.
Proof.
  intros Hlen. unfold newIdentity.
  destruct (deriveHashes _ _) as [hash address]. cbn [X25519Private Ed25519Seed].
  rewrite slice_prefix.
  rewrite (copy_into_whole 32 (take 32 randBuf)) by (rewrite length_take; lia).
  split; [done|].
  unfold Bytes.slice. change (64 - 32)%nat with 32%nat.
  rewrite (take_ge (drop 32 randBuf)) by (rewrite length_drop; lia).
  apply copy_into_whole. rewrite length_drop. lia.
Qed.

(** Every one of the 64 random bytes ends up in the identity file: when
    no file operation fails, saving the identity a worker built from a
    64-byte draw writes the clamped bytes 0-31 of the draw followed by
    its bytes 32-63 unchanged. *)
Theorem saved_file_of_draw
    (ScalarBaseMult Ed25519PublicFromSeed base64_Std base32_Std : list Z -> list Z)
    (randBuf : list Z) (path : string) (w : World) :
  length randBuf = 64%nat -> faults w = [] ->
  files (saveIdentity base64_Std base32_Std
           (newIdentity ScalarBaseMult Ed25519PublicFromSeed randBuf) path w).2 !! path
  = Some (clampX25519 (take 32 randBuf) ++ drop 32 randBuf)
  /\ drop 32 (clampX25519 (take 32 randBuf) ++ drop 32 randBuf) = drop 32 randBuf
  /\ length (clampX25519 (take 32 randBuf) ++ drop 32 randBuf) = 64%nat.
Proof.
  intros Hlen Hw.
  destruct (newIdentity_keys ScalarBaseMult Ed25519PublicFromSeed randBuf Hlen)
    as [Hpriv Hseed].
  set (identity := newIdentity ScalarBaseMult Ed25519PublicFromSeed randBuf) in *.
  assert (length (clampX25519 (take 32 randBuf)) = 32%nat) as Hl
    by (rewrite length_clamp, length_take; lia).
  split; [|split; [by rewrite drop_app_length'
                  | rewrite length_app, Hl, length_drop; lia]].
  pose proof (saveIdentity_steps base64_Std base32_Std identity path w) as Hs.
  cbv zeta in Hs. rewrite Hs. clear Hs.
  pose proof (binary_file_after_writes path (X25519Private identity)
                (Ed25519Seed identity) w) as Hbin.
  pose proof (os_Create_other (path +:+ ".txt") path) as O4.
  destruct (no_fault_after_Create path w Hw) as (H1 & _ & E0).
  set (w1 := (os_Create path w).2) in *.
  destruct (no_fault_after_Write path (X25519Private identity) w1 H1) as (H2 & _ & E1).
  set (w2 := (file_Write path (X25519Private identity) w1).2) in *.
  destruct (no_fault_after_Write path (Ed25519Seed identity) w2 H2) as (H3 & _ & E2).
  set (w3 := (file_Write path (Ed25519Seed identity) w2).2) in *.
  destruct (no_fault_after_Create (path +:+ ".txt") w3 H3) as (_ & _ & E3).
  rewrite E0, E1, E2, E3. cbn [negb snd].
  rewrite write_all_other by apply info_path_distinct.
  rewrite (O4 w3 (info_path_distinct path)), (Hbin E0 E1 E2), Hpriv, Hseed. done.
Qed.

Lemma saved_file_of_draw_witness :
  files (saveIdentity (fun b => b) (fun b => b) (sample_newIdentity buf_a) "identity"
           (mkWorld ∅ [])).2 !! "identity"%string
  = Some (clampX25519 (take 32 buf_a) ++ drop 32 buf_a).
Proof.
  exact (proj1 (saved_file_of_draw sample_ScalarBaseMult sample_Ed25519Public
                  (fun b => b) (fun b => b) buf_a "identity" (mkWorld ∅ [])
                  eq_refl eq_refl)).
Defined.

(** The private key [main] ends up with is a valid X25519 scalar: for
    every identity [main] holds in a reachable state, the exchange
    private key is 32 bytes which, read as a little-endian integer, are a
    multiple of 8 in [2^254, 2^255), and the seed is 32 bytes, all taken
    from one 64-byte draw. *)
Theorem held_private_key_is_clamped_scalar
    (ScalarBaseMult Ed25519PublicFromSeed : list Z -> list Z)
    (prefixNibbles postfixNibbles : list Z) (workers : nat)
    (s : System) (id : Identity) :
  reachable ScalarBaseMult Ed25519PublicFromSeed prefixNibbles postfixNibbles workers s ->
  In id (holds (coord s)) ->
  le_int (X25519Private id) mod 8 = 0
  /\ 2 ^ 254 <= le_int (X25519Private id) < 2 ^ 255
  /\ length (X25519Private id) = 32%nat /\ Bytes.all_bytes (X25519Private id)
  /\ length (Ed25519Seed id) = 32%nat /\ Bytes.all_bytes (Ed25519Seed id)
  /\ exists randBuf, length randBuf = 64%nat
       /\ X25519Private id = clampX25519 (take 32 randBuf)
       /\ Ed25519Seed id = drop 32 randBuf.
Proof.
  intros Hr Hin.
  destruct (held_discovered _ _ _ _ _ s id Hr (or_introl Hin))
    as [(randBuf & [Hlen Hbytes] & ->) _].
  destruct (newIdentity_keys ScalarBaseMult Ed25519PublicFromSeed randBuf Hlen)
    as [-> ->].
  assert (length (take 32 randBuf) = 32%nat) as Hl by (rewrite length_take; lia).
  assert (Bytes.all_bytes (take 32 randBuf)) as Hb by (by apply Forall_take).
  destruct (clamp_scalar (take 32 randBuf) Hl Hb) as (H8 & Hrange & Hcb).
  split; [done|]. split; [done|].
  split; [by rewrite length_clamp|]. split; [done|].
  split; [rewrite length_drop; lia|]. split; [by apply Forall_drop|].
  by exists randBuf.
Qed.

Lemma held_private_key_is_clamped_scalar_witness :
  2 ^ 254 <= le_int (X25519Private (sample_newIdentity buf_a)) < 2 ^ 255.
Proof.
  refine (proj1 (proj2 (held_private_key_is_clamped_scalar sample_ScalarBaseMult
            sample_Ed25519Public [2] [] 2 two_winners_final (sample_newIdentity buf_a)
            two_winners_reachable _))).
  left. reflexivity.
Defined.
